(** * space-data-agent: the entrypoint handlers of [src/index.ts]

    A shallow embedding of [fetchJSON] and of the [overview], [asteroids]
    and [report] entrypoint handlers, together with the properties of the
    aggregation they perform.

    Conventions of the embedding.
    - A JavaScript number is a value of [num]: [NaN], the two infinities, or
      a finite value carried as an exact rational (every finite double is
      one).  Only the sign of a difference is ever consumed (by
      [Array.prototype.sort]), and for IEEE-754 doubles the sign of the
      rounded difference is the sign of the exact one.
    - A JavaScript object used as a dictionary is a [gmap]; an array is a
      [list]; [null] and [undefined] results are [None] or a dedicated
      constructor.
    - A JavaScript string is a [string], the bytes of its encoding;
      [substring], whose positions count UTF-16 code units, is taken from
      the runtime.
    - Promises and timers are state of an explicit event loop (section
      "Event loop" below). *)

From Stdlib Require Import ZArith QArith Lqa Lia Ascii String.
From stdpp Require Import base option list gmap strings sorting pretty.

Local Open Scope string_scope.
Local Open Scope list_scope.
Local Open Scope Z_scope.

(** ** JavaScript numbers *)

Module JS.

Inductive num : Type :=
  | NaN
  | NegInf
  | PosInf
  | Fin (q : Q).

(** [ToBoolean] on a number: [NaN], [+0] and [-0] are falsy. *)
Definition truthy (n : num) : bool :=
  match n with
  | NaN => false
  | Fin q => negb (Qeq_bool q 0)
  | NegInf | PosInf => true
  end.

(** [v || Infinity] where [v] is a number or [null] ([None]). *)
Definition or_Infinity (v : option num) : num :=
  match v with
  | Some n => if truthy n then n else PosInf
  | None => PosInf
  end.

(** The binary [-] of two numbers. *)
Definition sub (a b : num) : num :=
  match a, b with
  | NaN, _ | _, NaN => NaN
  | PosInf, PosInf | NegInf, NegInf => NaN
  | PosInf, _ => PosInf
  | NegInf, _ => NegInf
  | Fin _, PosInf => NegInf
  | Fin _, NegInf => PosInf
  | Fin x, Fin y => Fin (x - y)
  end.

(** [v < 0]; false on [NaN]. *)
Definition is_neg (n : num) : bool :=
  match n with
  | NegInf => true
  | Fin q => match (q ?= 0)%Q with Lt => true | _ => false end
  | NaN | PosInf => false
  end.

(** [Array.prototype.sort(comparefn)]: the engine calls [comparefn], reads
    a [NaN] result as [+0] and places [x] before [y] when the result is
    negative.  The sort is stable (ECMAScript 2019), so for a consistent
    comparator the result is the one computed by a stable insertion sort:
    an element moves left only past elements that compare strictly after
    it. *)
Section Sort.
Context {A : Type} (comparefn : A → A → num).

Fixpoint insert (x : A) (l : list A) : list A :=
  match l with
  | [] => [x]
  | y :: l' => if is_neg (comparefn y x) then y :: insert x l' else x :: y :: l'
  end.

Definition sort (l : list A) : list A := foldr insert [] l.

(** [y] is not placed before [x]. *)
Definition not_after (x y : A) : Prop := is_neg (comparefn y x) = false.

(** Neither is placed before the other. *)
Definition tied (x y : A) : Prop := not_after x y ∧ not_after y x.

#[global] Instance tied_dec x y : Decision (tied x y).
Proof. unfold tied, not_after. apply _. Defined.
End Sort.

End JS.

Import JS.

(** ** The [asteroids] entrypoint *)

Module Asteroids.

(** One element of [neo.close_approach_data]. *)
Record approach : Type := {
  close_approach_date : string;
  miss_distance_kilometers : string;
  relative_velocity_kilometers_per_hour : string
}.

(** One near-earth object of the feed. *)
Record neo : Type := {
  neo_name : string;
  neo_id : string;
  estimated_diameter_min : num;
  estimated_diameter_max : num;
  is_potentially_hazardous_asteroid : bool;
  close_approach_data : list approach
}.

(** The feed: [element_count] and the entries of [near_earth_objects] in
    the order [Object.entries] enumerates them. *)
Record feed : Type := {
  element_count : Z;
  near_earth_objects : list (string * list neo)
}.

(** A record pushed on the [asteroids] array.  [None] is [undefined] for
    [approachDate] and [null] for the two numeric fields. *)
Record asteroid : Type := {
  name : string;
  id_ : string;
  diameter_km : num * num;
  isPotentiallyHazardous : bool;
  approachDate : option string;
  missDistance_km : option num;
  relativeVelocity_kph : option num
}.

Record output : Type := {
  totalCount : Z;
  dateRange : string * string;
  hazardousCount : nat;
  closestApproach : option asteroid;
  asteroids : list asteroid;
  fetchedAt : string
}.

Section Handler.
(** The global [parseFloat], a function of the runtime. *)
Variable parseFloat : string → num.

Definition flatten_neo (n : neo) : asteroid :=
  let approach := head (close_approach_data n) in
  {| name := neo_name n;
     id_ := neo_id n;
     diameter_km := (estimated_diameter_min n, estimated_diameter_max n);
     isPotentiallyHazardous := is_potentially_hazardous_asteroid n;
     approachDate := close_approach_date <$> approach;
     missDistance_km := (λ a, parseFloat (miss_distance_kilometers a)) <$> approach;
     relativeVelocity_kph :=
       (λ a, parseFloat (relative_velocity_kilometers_per_hour a)) <$> approach |}.

(** The two nested [for ... of] loops. *)
Definition flatten (data : feed) : list asteroid :=
  flat_map (λ entry, flatten_neo <$> entry.2) (near_earth_objects data).

(** [(a, b) => (a.missDistance_km || Infinity) - (b.missDistance_km || Infinity)] *)
Definition sort_key (a : asteroid) : num := or_Infinity (missDistance_km a).
Definition by_miss_distance (a b : asteroid) : num := sub (sort_key a) (sort_key b).

Definition sorted_asteroids (data : feed) : list asteroid :=
  sort by_miss_distance (flatten data).

(** The object returned once the feed has been fetched. *)
Definition respond (data : feed) (start end_ now_iso : string) : output :=
  let sorted := sorted_asteroids data in
  {| totalCount := element_count data;
     dateRange := (start, end_);
     hazardousCount := length (filter (λ a, isPotentiallyHazardous a = true) sorted);
     closestApproach := head sorted;
     asteroids := take 20 sorted;
     fetchedAt := now_iso |}.
End Handler.

End Asteroids.

(** ** Dates *)

Module Date.

(** Decimal rendering of a non-negative integer, left-padded with zeros. *)
Definition pad (width : nat) (n : Z) : string :=
  let digits := pretty n in
  String.concat "" (replicate (width - String.length digits) "0") +:+ digits.

(** Proleptic Gregorian year, month and day of a day number counted from
    1970-01-01. *)
Definition civil_from_days (days : Z) : Z * Z * Z :=
  let z := days + 719468 in
  let era := z / 146097 in
  let doe := z - era * 146097 in
  let yoe := (doe - doe / 1460 + doe / 36524 - doe / 146096) / 365 in
  let doy := doe - (365 * yoe + yoe / 4 - yoe / 100) in
  let mp := (5 * doy + 2) / 153 in
  let d := doy - (153 * mp + 2) / 5 + 1 in
  let m := if mp <? 10 then mp + 3 else mp - 9 in
  let y := yoe + era * 400 in
  (if m <=? 2 then y + 1 else y, m, d).

Definition year_string (y : Z) : string :=
  if (0 <=? y) && (y <=? 9999) then pad 4 y
  else if y <? 0 then "-" +:+ pad 6 (- y)
  else "+" +:+ pad 6 y.

(** [Date.prototype.toISOString] of the instant [ms] milliseconds after
    the epoch. *)
Definition toISOString (ms : Z) : string :=
  let '(y, m, d) := civil_from_days (ms / 86400000) in
  let r := ms `mod` 86400000 in
  year_string y +:+ "-" +:+ pad 2 m +:+ "-" +:+ pad 2 d +:+ "T" +:+
  pad 2 (r / 3600000) +:+ ":" +:+ pad 2 ((r / 60000) `mod` 60) +:+ ":" +:+
  pad 2 ((r / 1000) `mod` 60) +:+ "." +:+ pad 3 (r `mod` 1000) +:+ "Z".

(** [s.split('T')[0]]: the text before the first ["T"]. *)
Fixpoint before_T (s : string) : string :=
  match s with
  | EmptyString => EmptyString
  | String c s' => if Ascii.eqb c "T"%char then EmptyString else String c (before_T s')
  end.

(** [new Date(ms).toISOString().split('T')[0]] *)
Definition iso_day (ms : Z) : string := before_T (toISOString ms).

End Date.

(** ** Upstream responses *)

Module Upstream.

(** The APOD document. *)
Record apod : Type := {
  title : string;
  date : string;
  explanation : string;
  media_type : string;
  url : string
}.

Record person : Type := { person_name : string; craft : string }.

(** [astros.json] of Open-Notify. *)
Record astros : Type := { number : Z; people : list person }.

(** [iss-now.json]: the two fields of [iss_position]. *)
Record iss_now : Type := { latitude : string; longitude : string }.

(** A parsed response body.  The handlers read the bodies untyped; the
    embedding distinguishes [null] and the four documents the upstream
    services serve. *)
Inductive json : Type :=
  | JNull
  | JApod (a : apod)
  | JAstros (a : astros)
  | JIss (i : iss_now)
  | JFeed (f : Asteroids.feed).

End Upstream.

Import Upstream.

(** ** Exceptions and results *)

Inductive error : Type :=
  | Error (message : string)
      (** [new Error(message)] *)
  | HostError (name message : string)
      (** a rejection made by the runtime: the failure of [fetch], the
          [AbortError] of an aborted signal, the [SyntaxError] of
          [response.json()] *)
  | TypeError
      (** raised by the engine on a property read of [null] or
          [undefined], or a call of a non-function *)
  | RangeError.
      (** [toISOString] of an invalid date *)

Inductive result (A : Type) : Type :=
  | Ok (a : A)
  | Throw (e : error).
Arguments Ok {A} a.
Arguments Throw {A} e.

#[global] Instance result_ret : MRet result := λ A a, Ok a.
#[global] Instance result_bind : MBind result := λ A B k r,
  match r with
  | Ok a => k a
  | Throw e => Throw e
  end.

(** ** The runtime *)

(** What the embedding takes from the JavaScript runtime and the process
    environment. *)
Class Runtime : Type := {
  (** the global [parseFloat] *)
  parseFloat : string → num;
  (** [s.substring(start, end)]: positions count the UTF-16 code units of
      the string, not its bytes *)
  String_substring : nat → nat → string → string;
  (** the message of the [AbortError] an aborted [fetch] rejects with *)
  abort_message : string;
  (** the delay [setTimeout] gives a request below 1 ms or above
      2^31-1 ms *)
  clamped_delay : Z;
  (** [process.env.NASA_API_KEY || 'DEMO_KEY'] *)
  NASA_API_KEY : string;
  (** the time value of [new Date(s)], [None] for an invalid date *)
  Date_parse : string → option Z;
  (** [d.setDate(d.getDate() + 3)], calendar arithmetic in the time zone of
      the process *)
  plus_3_days : Z → Z
}.

(** ** Event loop

    The state of the process between two callbacks: the clock, the
    [AbortController] objects, the pending timeouts, and the invocations of
    [fetchJSON] made so far.  A callback runs to completion, together with
    the promise reactions it triggers, before the next event is taken. *)

Module EventLoop.

(** Where an invocation of [fetchJSON] stands. *)
Inductive phase : Type :=
  | AwaitFetch             (** suspended at [await fetch(url, { signal })] *)
  | AwaitBody              (** has returned [response.json()], still pending *)
  | Fulfilled (v : json)
  | Rejected (e : error).

(** One invocation of [fetchJSON]: its arguments, the clock when it was
    made, its [controller], its [timeoutId] and its phase. *)
Record call : Type := {
  resource : string;
  timeout : Z;
  started : Z;
  controller : nat;
  timeoutId : nat;
  phase_of : phase
}.

Record loop : Type := {
  clock : Z;
  (** the controllers allocated so far, with [signal.aborted] *)
  next_controller : nat;
  controllers : gmap nat bool;
  (** the pending timeouts: when each is due and the controller its
      callback [() => controller.abort()] closes over *)
  next_timer : nat;
  timers : gmap nat (Z * nat);
  (** the invocations of [fetchJSON], in order; the promise an invocation
      returns is named by its index *)
  calls : list call;
  (** the calls [fetch(url, { signal })] issued: resource and controller *)
  requests : list (string * nat);
  (** the invocations that have settled, in the order they did *)
  settled : list nat
}.

Definition fresh_loop (now : Z) : loop :=
  {| clock := now; next_controller := 0; controllers := ∅; next_timer := 0;
     timers := ∅; calls := []; requests := []; settled := [] |}.

Definition with_phase (ph : phase) (c : call) : call :=
  {| resource := resource c; timeout := timeout c; started := started c;
     controller := controller c; timeoutId := timeoutId c; phase_of := ph |}.

Definition with_clock (t : Z) (s : loop) : loop :=
  {| clock := t; next_controller := next_controller s;
     controllers := controllers s; next_timer := next_timer s;
     timers := timers s; calls := calls s; requests := requests s;
     settled := settled s |}.

Definition with_timers (tm : gmap nat (Z * nat)) (s : loop) : loop :=
  {| clock := clock s; next_controller := next_controller s;
     controllers := controllers s; next_timer := next_timer s;
     timers := tm; calls := calls s; requests := requests s;
     settled := settled s |}.

Definition with_controllers (cs : gmap nat bool) (s : loop) : loop :=
  {| clock := clock s; next_controller := next_controller s;
     controllers := cs; next_timer := next_timer s;
     timers := timers s; calls := calls s; requests := requests s;
     settled := settled s |}.

(** [clearTimeout(id)] *)
Definition clearTimeout (id : nat) (s : loop) : loop :=
  with_timers (delete id (timers s)) s.

(** Invocation [i] moves to phase [ph]. *)
Definition transition (i : nat) (ph : phase) (s : loop) : loop :=
  {| clock := clock s; next_controller := next_controller s;
     controllers := controllers s; next_timer := next_timer s;
     timers := timers s; calls := alter (with_phase ph) i (calls s);
     requests := requests s; settled := settled s |}.

(** The promise of invocation [i] settles. *)
Definition settle (i : nat) (ph : phase) (s : loop) : loop :=
  let s' := transition i ph s in
  {| clock := clock s'; next_controller := next_controller s';
     controllers := controllers s'; next_timer := next_timer s';
     timers := timers s'; calls := calls s';
     requests := requests s'; settled := settled s' ++ [i] |}.

Section WithRuntime.
Context `{Runtime}.

(** The delay [setTimeout(f, timeout)] arms the timer with. *)
Definition timer_delay (timeout : Z) : Z :=
  if (1 <=? timeout) && (timeout <=? 2147483647) then timeout
  else clamped_delay.

(** The synchronous part of [fetchJSON(url, timeout)], up to its
    [await]: a new controller, a timer that aborts it, and the call of
    [fetch]. *)
Definition fetchJSON (url : string) (timeout : Z) (s : loop) : loop :=
  let controller := next_controller s in
  let timeoutId := next_timer s in
  {| clock := clock s;
     next_controller := S controller;
     controllers := <[controller := false]> (controllers s);
     next_timer := S timeoutId;
     timers := <[timeoutId := (clock s + timer_delay timeout, controller)]> (timers s);
     calls := calls s ++
       [{| resource := url; timeout := timeout; started := clock s;
           controller := controller; timeoutId := timeoutId;
           phase_of := AwaitFetch |}];
     requests := requests s ++ [(url, controller)];
     settled := settled s |}.

(** The [catch] block: [clearTimeout(timeoutId)] and
    [throw new Error(`Fetch failed: ${e.message}`)]. *)
Definition catch_block (i : nat) (c : call) (message : string) (s : loop) : loop :=
  settle i (Rejected (Error ("Fetch failed: " +:+ message)))
    (clearTimeout (timeoutId c) s).

(** What the abort of its signal does to invocation [i]: a pending
    [fetch] rejects into the [catch] block; a pending body read rejects
    the promise [fetchJSON] has already returned. *)
Definition abort_call (s : loop) (i : nat) : loop :=
  match calls s !! i with
  | Some c =>
      match phase_of c with
      | AwaitFetch => catch_block i c abort_message s
      | AwaitBody => settle i (Rejected (HostError "AbortError" abort_message)) s
      | Fulfilled _ | Rejected _ => s
      end
  | None => s
  end.

(** The invocations whose [fetch] was given the signal of [ctl]. *)
Definition listeners (ctl : nat) (s : loop) : list nat :=
  filter (λ i, controller <$> calls s !! i = Some ctl) (seq 0 (length (calls s))).

(** [controller.abort()] *)
Definition abort (ctl : nat) (s : loop) : loop :=
  foldl abort_call (with_controllers (<[ctl := true]> (controllers s)) s)
    (listeners ctl s).

(** [response.ok] *)
Definition ok (status : Z) : bool := (200 <=? status) && (status <=? 299).

Inductive event : Type :=
  | Elapse (t : Z)
      (** the clock advances to [t] *)
  | TimerFires (id : nat)
      (** the callback of timeout [id] runs *)
  | FetchRejects (i : nat) (name message : string)
      (** the [fetch] of invocation [i] rejects *)
  | ResponseArrives (i : nat) (status : Z)
      (** the [fetch] of invocation [i] resolves with a response *)
  | BodyParsed (i : nat) (v : json)
      (** [response.json()] of invocation [i] resolves *)
  | BodyFails (i : nat) (name message : string).
      (** [response.json()] of invocation [i] rejects *)

(** One turn of the loop; [None] when the event cannot occur in [s].
    [setTimeout] gives a lower bound: a timeout does not fire before it
    is due, and the clock may pass its due time before its callback
    runs. *)
Definition step (e : event) (s : loop) : option loop :=
  match e with
  | Elapse t =>
      if decide (clock s ≤ t) then Some (with_clock t s) else None
  | TimerFires id =>
      match timers s !! id with
      | Some (due, ctl) =>
          if decide (due ≤ clock s) then Some (abort ctl (clearTimeout id s))
          else None
      | None => None
      end
  | FetchRejects i _ message =>
      match calls s !! i with
      | Some c =>
          match phase_of c with
          | AwaitFetch => Some (catch_block i c message s)
          | _ => None
          end
      | None => None
      end
  | ResponseArrives i status =>
      match calls s !! i with
      | Some c =>
          match phase_of c with
          | AwaitFetch =>
              let s' := clearTimeout (timeoutId c) s in
              if ok status then Some (transition i AwaitBody s')
              else Some (catch_block i c ("API error: " +:+ pretty status) s')
          | _ => None
          end
      | None => None
      end
  | BodyParsed i v =>
      match calls s !! i with
      | Some c =>
          match phase_of c with
          | AwaitBody => Some (settle i (Fulfilled v) s)
          | _ => None
          end
      | None => None
      end
  | BodyFails i name message =>
      match calls s !! i with
      | Some c =>
          match phase_of c with
          | AwaitBody => Some (settle i (Rejected (HostError name message)) s)
          | _ => None
          end
      | None => None
      end
  end.

(** A sequence of turns. *)
Fixpoint steps (es : list event) (s : loop) : option loop :=
  match es with
  | [] => Some s
  | e :: es' => s' ← step e s; steps es' s'
  end.

(** The states the loop can be in. *)
Inductive reachable : loop → Prop :=
  | reachable_fresh now : reachable (fresh_loop now)
  | reachable_fetchJSON url timeout s :
      reachable s → reachable (fetchJSON url timeout s)
  | reachable_step e s s' :
      reachable s → step e s = Some s' → reachable s'.

(** An event is about invocation [j]: it is the answer of the network
    to its [fetch] or to its body read, or the firing of its timer. *)
Definition concerns (s : loop) (e : event) (j : nat) : Prop :=
  match e with
  | Elapse _ => False
  | TimerFires id => timeoutId <$> calls s !! j = Some id
  | FetchRejects i _ _ | ResponseArrives i _
  | BodyParsed i _ | BodyFails i _ _ => i = j
  end.

#[global] Instance concerns_dec s e j : Decision (concerns s e j).
Proof. destruct e; simpl; apply _. Defined.

(** The network answers the [fetch] of invocation [i]. *)
Definition answers (i : nat) (e : event) : Prop :=
  match e with
  | FetchRejects k _ _ | ResponseArrives k _ => k = i
  | Elapse _ | TimerFires _ | BodyParsed _ _ | BodyFails _ _ _ => False
  end.

Definition is_settled (ph : phase) : bool :=
  match ph with
  | Fulfilled _ | Rejected _ => true
  | AwaitFetch | AwaitBody => false
  end.

(** The rejection of an invocation whose timer fired before the
    response. *)
Definition timed_out : phase :=
  Rejected (Error ("Fetch failed: " +:+ abort_message)).

(** The general form of a turn that is about invocation [i]: its phase
    changes, its timer is no longer pending, its controller may have
    been aborted. *)
Definition advance (i : nat) (c : call) (ph : phase) (aborted : bool) (s : loop) : loop :=
  {| clock := clock s; next_controller := next_controller s;
     controllers :=
       if aborted then <[controller c := true]> (controllers s) else controllers s;
     next_timer := next_timer s;
     timers := delete (timeoutId c) (timers s);
     calls := alter (with_phase ph) i (calls s);
     requests := requests s;
     settled := if is_settled ph then settled s ++ [i] else settled s |}.

(** The phase an event moves the invocation it is about to, and whether
    the controller of the invocation is aborted in the same turn. *)
Definition effect (e : event) (c : call) : option (phase * bool) :=
  match e, phase_of c with
  | TimerFires _, AwaitFetch => Some (timed_out, true)
  | FetchRejects _ _ message, AwaitFetch =>
      Some (Rejected (Error ("Fetch failed: " +:+ message)), false)
  | ResponseArrives _ status, AwaitFetch =>
      Some (if ok status then AwaitBody
            else Rejected (Error ("Fetch failed: " +:+ "API error: " +:+ pretty status)),
            false)
  | BodyParsed _ v, AwaitBody => Some (Fulfilled v, false)
  | BodyFails _ name message, AwaitBody => Some (Rejected (HostError name message), false)
  | _, _ => None
  end.

(** What holds of every state of the loop. *)
Record consistent (s : loop) : Prop := {
  controllers_allocated : ∀ i c,
    calls s !! i = Some c → (controller c < next_controller s)%nat;
  timers_allocated : ∀ i c,
    calls s !! i = Some c → (timeoutId c < next_timer s)%nat;
  controllers_distinct : ∀ i j ci cj,
    calls s !! i = Some ci → calls s !! j = Some cj →
    controller ci = controller cj → i = j;
  timers_distinct : ∀ i j ci cj,
    calls s !! i = Some ci → calls s !! j = Some cj →
    timeoutId ci = timeoutId cj → i = j;
  timers_owned : ∀ id due ctl,
    timers s !! id = Some (due, ctl) →
    ∃ i c, calls s !! i = Some c ∧ timeoutId c = id ∧ controller c = ctl ∧
           phase_of c = AwaitFetch;
  timers_armed : ∀ i c,
    calls s !! i = Some c → phase_of c = AwaitFetch →
    timers s !! timeoutId c =
      Some (started c + timer_delay (timeout c), controller c);
  signals_live : ∀ i c,
    calls s !! i = Some c → is_settled (phase_of c) = false →
    controllers s !! controller c = Some false;
  settled_log : ∀ i,
    i ∈ settled s ↔ ∃ c, calls s !! i = Some c ∧ is_settled (phase_of c) = true
}.
End WithRuntime.

End EventLoop.

Import EventLoop.

(** ** [Promise.all] over invocations of [fetchJSON] *)

Module Aggregation.

Inductive promise_state (A : Type) : Type :=
  | Pending
  | Resolved (a : A)
  | Failed (e : error).
Arguments Pending {A}.
Arguments Resolved {A} a.
Arguments Failed {A} e.

(** An element of the array given to [Promise.all]: the promise of an
    invocation of [fetchJSON], as it is or behind [.catch(() => null)]. *)
Record element : Type := { promise : nat; caught : bool }.

Definition element_state (s : loop) (el : element) : promise_state json :=
  match phase_of <$> calls s !! promise el with
  | Some (Fulfilled v) => Resolved v
  | Some (Rejected e) => if caught el then Resolved JNull else Failed e
  | Some AwaitFetch | Some AwaitBody | None => Pending
  end.

(** The reason invocation [i] rejects [Promise.all] with, if it is an
    element without [catch] and has rejected. *)
Definition rejection_of (els : list element) (s : loop) (i : nat) : option error :=
  if existsb (λ el, bool_decide (promise el = i) && negb (caught el)) els then
    match phase_of <$> calls s !! i with
    | Some (Rejected e) => Some e
    | _ => None
    end
  else None.

(** The first rejection among the elements, in the order of settlement. *)
Definition first_rejection (els : list element) (s : loop) : option error :=
  head (omap (rejection_of els s) (settled s)).

Definition resolved_value (s : loop) (el : element) : option json :=
  match element_state s el with
  | Resolved v => Some v
  | Pending | Failed _ => None
  end.

(** The state of [Promise.all(els)]: rejected with the first rejection of
    an element, fulfilled with the array of values once every element is
    fulfilled. *)
Definition Promise_all (els : list element) (s : loop) : promise_state (list json) :=
  match first_rejection els s with
  | Some e => Failed e
  | None =>
      match mapM (resolved_value s) els with
      | Some vs => Resolved vs
      | None => Pending
      end
  end.

(** A fetch made by a handler: the arguments of [fetchJSON] and whether
    [.catch(() => null)] follows. *)
Record task : Type := { task_url : string; task_timeout : Z; with_catch : bool }.

(** The promises of the tasks, when the first is invocation [first]. *)
Definition elements_from (first : nat) (tasks : list task) : list element :=
  imap (λ i t, {| promise := first + i; caught := with_catch t |}) tasks.

(** A handler that awaits the promises of its tasks, through
    [Promise.all] or directly when there is one: its continuation receives
    the values and the clock. *)
Record handler (O : Type) : Type := {
  tasks : list task;
  continuation : list json → Z → result O
}.
Arguments tasks {O} h.
Arguments continuation {O} h vs now.

Definition elements {O} (h : handler O) : list element :=
  elements_from 0 (tasks h).

(** A handler in flight: the loop and, once the handler has returned or
    thrown, its outcome. *)
Record run (O : Type) : Type := {
  state : loop;
  outcome : option (result O)
}.
Arguments state {O} r.
Arguments outcome {O} r.

(** The reaction to the awaited promise settling; it runs once. *)
Definition resume {O} (h : handler O) (s : loop) (o : option (result O)) : option (result O) :=
  match o with
  | Some r => Some r
  | None =>
      match Promise_all (elements h) s with
      | Pending => None
      | Failed e => Some (Throw e)
      | Resolved vs => Some (continuation h vs (clock s))
      end
  end.

Section WithRuntime.
Context `{Runtime}.

(** The outcome of a handler in flight agrees with the state of the
    promise it awaits. *)
Definition run_ok {O} (h : handler O) (r : run O) : Prop :=
  consistent (state r) ∧
  match outcome r with
  | None => Promise_all (elements h) (state r) = Pending
  | Some o =>
      (∃ e, Promise_all (elements h) (state r) = Failed e ∧ o = Throw e) ∨
      (∃ vs t, Promise_all (elements h) (state r) = Resolved vs ∧
               o = continuation h vs t)
  end.

(** The array literal of a handler: [fetchJSON] is invoked on each task,
    left to right. *)
Definition launch (tasks : list task) (s : loop) : loop :=
  foldl (λ s t, fetchJSON (task_url t) (task_timeout t) s) s tasks.

(** The handler is invoked at time [now] in a fresh loop. *)
Definition start {O} (h : handler O) (now : Z) : run O :=
  let s := launch (tasks h) (fresh_loop now) in
  {| state := s; outcome := resume h s None |}.

Definition run_step {O} (h : handler O) (e : event) (r : run O) : option (run O) :=
  s' ← step e (state r);
  Some {| state := s'; outcome := resume h s' (outcome r) |}.

Fixpoint run_steps {O} (h : handler O) (es : list event) (r : run O) : option (run O) :=
  match es with
  | [] => Some r
  | e :: es' => r' ← run_step h e r; run_steps h es' r'
  end.
End WithRuntime.

End Aggregation.

Import Aggregation.

(** ** The entrypoints *)

Module Entrypoints.

Definition astros_url : string := "http://api.open-notify.org/astros.json".
Definition iss_url : string := "http://api.open-notify.org/iss-now.json".

(** [[...new Set(xs)]]: the first occurrence of each value, in order. *)
Definition dedupe (xs : list string) : list string :=
  foldl (λ seen x, if bool_decide (x ∈ seen) then seen else seen ++ [x]) [] xs.

(** The properties every object inherits from [Object.prototype]. *)
Definition Object_prototype_keys : list string :=
  ["constructor"; "__defineGetter__"; "__defineSetter__"; "hasOwnProperty";
   "__lookupGetter__"; "__lookupSetter__"; "isPrototypeOf";
   "propertyIsEnumerable"; "toString"; "valueOf"; "__proto__";
   "toLocaleString"].

(** The loop that groups the names by craft.  [byCraft[craft]] of a craft
    not yet seen is [undefined], unless the name is inherited from
    [Object.prototype]: then it is truthy, no array is stored and [push]
    is not a function. *)
Fixpoint group_by_craft (people : list person) (byCraft : gmap string (list string))
    : result (gmap string (list string)) :=
  match people with
  | [] => Ok byCraft
  | p :: rest =>
      match byCraft !! craft p with
      | Some names => group_by_craft rest (<[craft p := names ++ [person_name p]]> byCraft)
      | None =>
          if bool_decide (craft p ∈ Object_prototype_keys) then Throw TypeError
          else group_by_craft rest (<[craft p := [person_name p]]> byCraft)
      end
  end.

(** *** [overview] *)

Record overview_output : Type := {
  humansInSpace : Z;
  crafts : list string;
  todaysApod : option string;
  apodDate : option string;
  overview_fetchedAt : string;
  overview_dataSources : list string
}.

(** *** [report] *)

Record picture : Type := {
  picture_title : string;
  picture_explanation : string;
  picture_url : string;
  mediaType : string
}.

Inductive iss_location : Type :=
  | position (latitude longitude : num)
  | unavailable.

Record hazardous : Type := {
  hazardous_name : string;
  diameter_km_max : num;
  hazardous_approachDate : option string
}.

Record asteroid_summary : Type := {
  totalTracked : Z;
  hazardousObjects : nat;
  hazardousList : list hazardous
}.

Record report_body : Type := {
  report_date : string;
  astronomyPictureOfTheDay : picture;
  humansInSpace_total : Z;
  byCraft : gmap string (list string);
  issLocation : iss_location;
  nearEarthObjects : option asteroid_summary
}.

Record report_output : Type := {
  report : report_body;
  report_fetchedAt : string;
  report_dataSources : list string
}.

Definition map_result {A B : Type} (f : A → B) (r : result A) : result B :=
  match r with
  | Ok a => Ok (f a)
  | Throw e => Throw e
  end.

(** The same output, stamped with another [fetchedAt]. *)
Definition overview_stamped (fetchedAt : string) (o : overview_output) : overview_output :=
  {| humansInSpace := humansInSpace o; crafts := crafts o;
     todaysApod := todaysApod o; apodDate := apodDate o;
     overview_fetchedAt := fetchedAt;
     overview_dataSources := overview_dataSources o |}.

Definition asteroids_stamped (fetchedAt : string) (o : Asteroids.output) : Asteroids.output :=
  {| Asteroids.totalCount := Asteroids.totalCount o;
     Asteroids.dateRange := Asteroids.dateRange o;
     Asteroids.hazardousCount := Asteroids.hazardousCount o;
     Asteroids.closestApproach := Asteroids.closestApproach o;
     Asteroids.asteroids := Asteroids.asteroids o;
     Asteroids.fetchedAt := fetchedAt |}.

Section WithRuntime.
Context `{Runtime}.

Definition apod_url : string :=
  "https://api.nasa.gov/planetary/apod?api_key=" +:+ NASA_API_KEY.

Definition feed_url (start end_ : string) : string :=
  "https://api.nasa.gov/neo/rest/v1/feed?start_date=" +:+ start +:+
  "&end_date=" +:+ end_ +:+ "&api_key=" +:+ NASA_API_KEY.

(** **** overview *)

Definition overview_tasks : list task :=
  [ {| task_url := astros_url; task_timeout := 30000; with_catch := false |};
    {| task_url := apod_url; task_timeout := 30000; with_catch := false |} ].

(** The object literal returned after [await Promise.all]. *)
Definition overview_continuation (vs : list json) (now : Z) : result overview_output :=
  match vs with
  | [astros; apod] =>
      a ← match astros with
          | JAstros a => Ok a
          | JNull | JApod _ | JIss _ | JFeed _ => Throw TypeError
          end;
      titled ← match apod with
          | JNull => Throw TypeError
          | JApod p => Ok (Some (title p), Some (date p))
          | JAstros _ | JIss _ | JFeed _ => Ok (None, None)
          end;
      Ok {| humansInSpace := number a;
            crafts := dedupe (craft <$> people a);
            todaysApod := titled.1;
            apodDate := titled.2;
            overview_fetchedAt := Date.toISOString now;
            overview_dataSources := ["NASA APOD"; "Open-Notify Astros"] |}
  | _ => Throw TypeError
  end.

Definition overview : handler overview_output :=
  {| tasks := overview_tasks; continuation := overview_continuation |}.

(** **** asteroids *)

(** [v || d] on an optional string: the empty string is falsy. *)
Definition or_default (v : option string) (d : string) : string :=
  match v with
  | Some s => if bool_decide (s = "") then d else s
  | None => d
  end.

(** The date range of the request: [start] and [end]. *)
Definition asteroids_range (startDate endDate : option string) (now : Z)
    : result (string * string) :=
  let today := Date.iso_day now in
  let start := or_default startDate today in
  match or_default endDate "" with
  | "" =>
      match Date_parse start with
      | Some t => Ok (start, Date.iso_day (plus_3_days t))
      | None => Throw RangeError
      end
  | end_ => Ok (start, end_)
  end.

Definition asteroids_tasks (range : string * string) : list task :=
  [ {| task_url := feed_url range.1 range.2; task_timeout := 30000;
       with_catch := false |} ].

Definition asteroids_continuation (range : string * string)
    (vs : list json) (now : Z) : result Asteroids.output :=
  match vs with
  | [JFeed data] =>
      Ok (Asteroids.respond parseFloat data range.1 range.2 (Date.toISOString now))
  | _ => Throw TypeError
  end.

Definition asteroids (range : string * string) : handler Asteroids.output :=
  {| tasks := asteroids_tasks range;
     continuation := asteroids_continuation range |}.

(** **** report *)

Definition report_tasks (includeAsteroids : bool) (now : Z) : list task :=
  [ {| task_url := apod_url; task_timeout := 30000; with_catch := false |};
    {| task_url := astros_url; task_timeout := 30000; with_catch := false |};
    {| task_url := iss_url; task_timeout := 15000; with_catch := true |} ] ++
  (if includeAsteroids then
     [ {| task_url := feed_url (Date.iso_day now) (Date.iso_day (plus_3_days now));
          task_timeout := 30000; with_catch := false |} ]
   else []).

Definition hazardous_of (a : Asteroids.neo) : hazardous :=
  {| hazardous_name := Asteroids.neo_name a;
     diameter_km_max := Asteroids.estimated_diameter_max a;
     hazardous_approachDate :=
       Asteroids.close_approach_date <$> head (Asteroids.close_approach_data a) |}.

(** [asteroidSummary]; [neo] is [None] when the feed was not requested. *)
Definition summarize (neo : option json) : result (option asteroid_summary) :=
  match neo with
  | None | Some JNull => Ok None
  | Some (JFeed data) =>
      let hazardous :=
        flat_map (λ entry,
          hazardous_of <$>
            filter (λ a, Asteroids.is_potentially_hazardous_asteroid a = true) entry.2)
          (Asteroids.near_earth_objects data) in
      Ok (Some {| totalTracked := Asteroids.element_count data;
                  hazardousObjects := length hazardous;
                  hazardousList := take 5 hazardous |})
  | Some (JApod _) | Some (JAstros _) | Some (JIss _) => Throw TypeError
  end.

(** [iss ? { latitude: ..., longitude: ... } : 'unavailable'] *)
Definition locate (iss : json) : result iss_location :=
  match iss with
  | JNull => Ok unavailable
  | JIss i => Ok (position (parseFloat (latitude i)) (parseFloat (longitude i)))
  | JApod _ | JAstros _ | JFeed _ => Throw TypeError
  end.

Definition report_continuation (today : string) (vs : list json) (now : Z)
    : result report_output :=
  match vs with
  | apod :: astros :: iss :: rest =>
      grouped ← match astros with
          | JAstros a => g ← group_by_craft (people a) ∅; Ok (number a, g)
          | JNull | JApod _ | JIss _ | JFeed _ => Throw TypeError
          end;
      asteroidSummary ← summarize (head rest);
      pic ← match apod with
          | JApod p =>
              Ok {| picture_title := title p;
                    picture_explanation :=
                      String_substring 0 500 (explanation p) +:+ "...";
                    picture_url := url p;
                    mediaType := media_type p |}
          | JNull | JAstros _ | JIss _ | JFeed _ => Throw TypeError
          end;
      loc ← locate iss;
      Ok {| report :=
              {| report_date := today;
                 astronomyPictureOfTheDay := pic;
                 humansInSpace_total := grouped.1;
                 byCraft := grouped.2;
                 issLocation := loc;
                 nearEarthObjects := asteroidSummary |};
            report_fetchedAt := Date.toISOString now;
            report_dataSources := ["NASA APOD"; "NASA NEO"; "Open-Notify"] |}
  | _ => Throw TypeError
  end.

(** The handler invoked at time [now]. *)
Definition report_entry (includeAsteroids : bool) (now : Z) : handler report_output :=
  {| tasks := report_tasks includeAsteroids now;
     continuation := report_continuation (Date.iso_day now) |}.
End WithRuntime.

End Entrypoints.

Import Entrypoints.

(** ** A runtime for the examples

    It agrees with the JavaScript functions on the inputs the examples
    below use: [parseFloat] on strings of decimal digits, [substring] on
    ASCII strings, [new Date(s)] on calendar dates [YYYY-MM-DD], and a
    process in the UTC time zone. *)

Module ExampleRuntime.

Definition digit (c : ascii) : option Z :=
  let n := Z.of_nat (nat_of_ascii c) - 48 in
  if (0 <=? n) && (n <=? 9) then Some n else None.

Fixpoint digits (s : string) (acc : Z) : option Z :=
  match s with
  | EmptyString => Some acc
  | String c s' => d ← digit c; digits s' (10 * acc + d)
  end.

Definition parse_digits (s : string) : num :=
  match s with
  | EmptyString => NaN
  | _ => from_option (λ n, Fin (inject_Z n)) NaN (digits s 0)
  end.

Definition days_from_civil (y m d : Z) : Z :=
  let y' := if m <=? 2 then y - 1 else y in
  let era := y' / 400 in
  let yoe := y' - era * 400 in
  let doy := (153 * ((m + 9) `mod` 12) + 2) / 5 + d - 1 in
  era * 146097 + (yoe * 365 + yoe / 4 - yoe / 100 + doy) - 719468.

Definition parse_calendar_date (s : string) : option Z :=
  match s with
  | String y1 (String y2 (String y3 (String y4 (String "-"
      (String m1 (String m2 (String "-" (String d1 (String d2 EmptyString))))))))) =>
      y ← digits (String y1 (String y2 (String y3 (String y4 EmptyString)))) 0;
      m ← digits (String m1 (String m2 EmptyString)) 0;
      d ← digits (String d1 (String d2 EmptyString)) 0;
      if (1 <=? m) && (m <=? 12) && (1 <=? d) &&
         bool_decide (Date.civil_from_days (days_from_civil y m d) = (y, m, d))
      then Some (days_from_civil y m d * 86400000) else None
  | _ => None
  end.

#[export] Instance runtime : Runtime := {|
  parseFloat := parse_digits;
  String_substring := λ start end_ s, substring start (end_ - start) s;
  abort_message := "The operation was aborted.";
  clamped_delay := 1;
  NASA_API_KEY := "DEMO_KEY";
  Date_parse := parse_calendar_date;
  plus_3_days := λ t, t + 259200000
|}.

End ExampleRuntime.

Import ExampleRuntime.

(** ** Sample data *)

Module Sample.

Definition asteroid_at (label : string) (distance : option num) : Asteroids.asteroid :=
  {| Asteroids.name := label;
     Asteroids.id_ := label;
     Asteroids.diameter_km := (Fin (1 # 10), Fin (2 # 10));
     Asteroids.isPotentiallyHazardous := false;
     Asteroids.approachDate := None;
     Asteroids.missDistance_km := distance;
     Asteroids.relativeVelocity_kph := None |}.

(** No close approach: [missDistance_km] is [null]. *)
Definition unknown : Asteroids.asteroid := asteroid_at "unknown" None.
(** A miss distance of 5 km. *)
Definition near : Asteroids.asteroid := asteroid_at "near" (Some (Fin 5)).
(** A miss distance of 0 km. *)
Definition impact : Asteroids.asteroid := asteroid_at "impact" (Some (Fin 0)).

(** A feed that announces seven objects and lists none. *)
Definition empty_feed : Asteroids.feed :=
  {| Asteroids.element_count := 7; Asteroids.near_earth_objects := [] |}.

Definition picture_of_the_day : apod :=
  {| title := "Orion"; date := "2024-01-01"; explanation := "A nebula.";
     media_type := "image"; url := "https://apod.nasa.gov/orion.jpg" |}.

Definition crew : astros :=
  {| number := 2;
     people := [ {| person_name := "A"; craft := "ISS" |};
                 {| person_name := "B"; craft := "Tiangong" |} ] |}.

(** The network fails. *)
Definition network_error (i : nat) : event := FetchRejects i "TypeError" "fetch failed".

(** The two fetches of the overview are answered. *)
Definition overview_answers : list event :=
  [ ResponseArrives 0 200; BodyParsed 0 (JAstros crew);
    ResponseArrives 1 200; BodyParsed 1 (JApod picture_of_the_day) ].

(** The fetches of a report without asteroids are answered, but for the
    position of the ISS, whose fetch fails. *)
Definition report_answers_but_iss : list event :=
  [ ResponseArrives 0 200; BodyParsed 0 (JApod picture_of_the_day);
    network_error 2;
    ResponseArrives 1 200; BodyParsed 1 (JAstros crew) ].



End Sample.

(** ** The [astronauts] entrypoint *)

Module Astronauts.

Definition digit_value (c : ascii) : option Z :=
  let n := Z.of_nat (nat_of_ascii c) - 48 in
  if (0 <=? n) && (n <=? 9) then Some n else None.

Fixpoint decimal (s : string) (acc : Z) : option Z :=
  match s with
  | EmptyString => Some acc
  | String c s' => d ← digit_value c; decimal s' (10 * acc + d)
  end.

(** The value of a property key that is an array index: the canonical
    decimal numeral of an integer from 0 to 2^32-2. *)
Definition array_index (k : string) : option Z :=
  match k with
  | EmptyString => None
  | String c _ =>
      n ← decimal k 0;
      if (bool_decide (k = "0") || negb (Ascii.eqb c "0"%char)) && (n <=? 4294967294)
      then Some n else None
  end.

Definition index_le (a b : Z * string) : Prop := a.1 ≤ b.1.

#[global] Instance index_le_dec a b : Decision (index_le a b).
Proof. unfold index_le. apply _. Defined.

(** [Object.keys(o)] of a plain object whose properties were created by
    assignments to the keys [inserted], in that order: the array indices
    in ascending order, then the other keys in the order of their
    creation. *)
Definition Object_keys (inserted : list string) : list string :=
  let ks := dedupe inserted in
  let indexed := omap (λ k, (λ n, (n, k)) <$> array_index k) ks in
  (snd <$> merge_sort index_le indexed) ++
  filter (λ k, ¬ is_Some (array_index k)) ks.

Record output : Type := {
  totalInSpace : Z;
  byCraft : gmap string (list string);
  crafts : list string;
  fetchedAt : string
}.

Definition astronauts_tasks : list task :=
  [ {| task_url := astros_url; task_timeout := 30000; with_catch := false |} ].

(** The handler after [await fetchJSON(...)]: the grouping loop and the
    object literal. *)
Definition astronauts_continuation (vs : list json) (now : Z) : result output :=
  match vs with
  | [JAstros data] =>
      grouped ← group_by_craft (people data) ∅;
      Ok {| totalInSpace := number data;
            byCraft := grouped;
            crafts := Object_keys (craft <$> people data);
            fetchedAt := Date.toISOString now |}
  | _ => Throw TypeError
  end.

Definition astronauts : handler output :=
  {| tasks := astronauts_tasks; continuation := astronauts_continuation |}.

End Astronauts.

(** ** The [analytics-transactions] entrypoint *)

Module Analytics.

(** [ToIntegerOrInfinity] of a number, then the bound [slice(0, end)]
    stops at in an array of length [len]. *)
Definition slice_end (len : Z) (end_ : num) : Z :=
  match end_ with
  | NaN | NegInf => 0
  | PosInf => len
  | Fin q =>
      let k := Z.quot (Qnum q) (Z.pos (Qden q)) in
      if k <? 0 then Z.max (len + k) 0 else Z.min k len
  end.

(** [xs.slice(0, end)] *)
Definition slice_to {A : Type} (xs : list A) (end_ : num) : list A :=
  take (Z.to_nat (slice_end (Z.of_nat (length xs)) end_)) xs.

(** The handler: [tracker] is [None] when the agent has no payment
    tracker, otherwise it holds what [getAllTransactions] resolves with;
    [limit] is the input field, 50 when it is omitted. *)
Definition transactions {A : Type} (tracker : option (list A)) (limit : option num)
    : list A :=
  match tracker with
  | None => []
  | Some txs => slice_to txs (default (Fin 50) limit)
  end.

End Analytics.

(** ** Events of the body read *)

(** The event settles [response.json()] of invocation [i]. *)
Definition delivers_body (i : nat) (e : event) : Prop :=
  match e with
  | BodyParsed k _ | BodyFails k _ _ => k = i
  | Elapse _ | TimerFires _ | FetchRejects _ _ _ | ResponseArrives _ _ => False
  end.

(** The names of the people aboard craft [k], in the order of the
    upstream list. *)
Definition crew_of (k : string) (people : list person) : list string :=
  person_name <$> filter (λ p, craft p = k) people.

(** ** More sample data *)

Module Fixtures.

(** A hazardous object with no close approach, and a harmless one that
    misses by [distance] km. *)
Definition rock (label : string) (hazard : bool) (approaches : list Asteroids.approach)
    : Asteroids.neo :=
  {| Asteroids.neo_name := label;
     Asteroids.neo_id := label;
     Asteroids.estimated_diameter_min := Fin (1 # 10);
     Asteroids.estimated_diameter_max := Fin (2 # 10);
     Asteroids.is_potentially_hazardous_asteroid := hazard;
     Asteroids.close_approach_data := approaches |}.

Definition passing (day distance : string) : Asteroids.approach :=
  {| Asteroids.close_approach_date := day;
     Asteroids.miss_distance_kilometers := distance;
     Asteroids.relative_velocity_kilometers_per_hour := "1000" |}.

(** Two days, three objects, two of them hazardous. *)
Definition feed : Asteroids.feed :=
  {| Asteroids.element_count := 3;
     Asteroids.near_earth_objects :=
       [ ("2024-01-01", [ rock "a" true [passing "2024-01-01" "700"];
                          rock "b" false [passing "2024-01-01" "30"] ]);
         ("2024-01-02", [ rock "c" true [] ]) ] |}.

(** A crew with a craft named like a property of [Object.prototype]. *)
Definition odd_crew : astros :=
  {| number := 2;
     people := [ {| person_name := "A"; craft := "ISS" |};
                 {| person_name := "B"; craft := "constructor" |} ] |}.

(** Crafts named by numbers. *)
Definition numbered_crew : astros :=
  {| number := 3;
     people := [ {| person_name := "A"; craft := "10" |};
                 {| person_name := "B"; craft := "ISS" |};
                 {| person_name := "C"; craft := "9" |} ] |}.

End Fixtures.

(** * Properties *)

(** ** Sorting *)

Section SortFacts.
Context {A : Type} (comparefn : A → A → num).

Lemma insert_Permutation x l : insert comparefn x l ≡ₚ x :: l.
Proof.
  induction l as [|y l IH]; simpl; [done|].
  destruct (is_neg (comparefn y x)); [|done].
  rewrite IH. apply Permutation_swap.
Qed.

Lemma sort_Permutation l : sort comparefn l ≡ₚ l.
Proof.
  induction l as [|x l IH]; simpl; [done|].
  unfold sort in IH. by rewrite insert_Permutation, IH.
Qed.

(** The comparator is consistent. *)
Hypothesis asymmetric :
  ∀ x y, is_neg (comparefn y x) = true → is_neg (comparefn x y) = false.
Hypothesis transitive :
  ∀ x y z, not_after comparefn x y → not_after comparefn y z →
           not_after comparefn x z.
Hypothesis tied_transitive :
  ∀ x y z, tied comparefn z x → tied comparefn z y → not_after comparefn x y.

Lemma insert_StronglySorted x l :
  StronglySorted (not_after comparefn) l →
  StronglySorted (not_after comparefn) (insert comparefn x l).
Proof.
  induction 1 as [|y l Hl IH Hy]; simpl.
  - repeat constructor.
  - destruct (is_neg (comparefn y x)) eqn:Hyx.
    + constructor; [done|].
      rewrite insert_Permutation. constructor; [|done].
      by apply asymmetric.
    + constructor; [by constructor|].
      constructor; [done|].
      eapply Forall_impl; [exact Hy|]. intros z Hz. by eapply transitive.
Qed.

(** The result is sorted ... *)
Lemma sort_StronglySorted l :
  StronglySorted (not_after comparefn) (sort comparefn l).
Proof.
  induction l as [|x l IH]; simpl; [constructor|].
  by apply insert_StronglySorted.
Qed.

Lemma insert_stable x l z :
  filter (tied comparefn z) (insert comparefn x l) =
  filter (tied comparefn z) (x :: l).
Proof.
  induction l as [|y l IH]; [done|].
  cbn [insert]. destruct (is_neg (comparefn y x)) eqn:Hyx; [|done].
  rewrite (filter_cons _ y), IH, !filter_cons.
  destruct (decide (tied comparefn z y)) as [Hy|Hy]; [|done].
  destruct (decide (tied comparefn z x)) as [Hx|Hx]; [|done].
  pose proof (tied_transitive x y z Hx Hy) as Hxy.
  unfold not_after in Hxy. congruence.
Qed.

(** ... and elements that tie keep the order of the input. *)
Lemma sort_stable l z :
  filter (tied comparefn z) (sort comparefn l) = filter (tied comparefn z) l.
Proof.
  induction l as [|x l IH]; [done|].
  change (sort comparefn (x :: l)) with (insert comparefn x (sort comparefn l)).
  by rewrite insert_stable, !filter_cons, IH.
Qed.
End SortFacts.

Section NumFacts.
Lemma is_neg_Fin q : is_neg (Fin q) = true ↔ (q < 0)%Q.
Proof.
  simpl. rewrite Qlt_alt. destruct (q ?= 0)%Q; split; congruence.
Qed.

Lemma is_neg_Fin_false q : is_neg (Fin q) = false ↔ (0 <= q)%Q.
Proof.
  rewrite <- not_true_iff_false, is_neg_Fin. split; intros; lra.
Qed.

Lemma sub_asymmetric a b : is_neg (sub a b) = true → is_neg (sub b a) = false.
Proof.
  destruct a as [| | |x], b as [| | |y]; simpl sub; try done.
  rewrite is_neg_Fin, is_neg_Fin_false. lra.
Qed.

Lemma sub_transitive a b c :
  b ≠ NaN →
  is_neg (sub b a) = false → is_neg (sub c b) = false →
  is_neg (sub c a) = false.
Proof.
  destruct a as [| | |x], b as [| | |y], c as [| | |z]; simpl sub; try done.
  rewrite !is_neg_Fin_false. lra.
Qed.

Lemma sub_tied a b c :
  a ≠ NaN → b ≠ NaN → c ≠ NaN →
  is_neg (sub a c) = false → is_neg (sub c a) = false →
  is_neg (sub b c) = false → is_neg (sub c b) = false →
  is_neg (sub b a) = false.
Proof.
  destruct a as [| | |x], b as [| | |y], c as [| | |z]; simpl sub; try done.
  rewrite !is_neg_Fin_false. lra.
Qed.

Lemma or_Infinity_not_NaN v : or_Infinity v ≠ NaN.
Proof. destruct v as [[]|]; simpl; try done. by destruct (negb _). Qed.

(** Nothing but [Infinity] sorts after [Infinity]. *)
Lemma after_PosInf k : k ≠ NaN → is_neg (sub k PosInf) = false → k = PosInf.
Proof. by destruct k. Qed.
End NumFacts.

Section AsteroidSort.
Import Asteroids.

Lemma by_miss_distance_sorted l :
  StronglySorted (not_after by_miss_distance) (sort by_miss_distance l).
Proof.
  apply sort_StronglySorted.
  - intros x y. apply sub_asymmetric.
  - intros x y z. unfold not_after, by_miss_distance. intros Hxy Hyz.
    eapply sub_transitive; [apply (or_Infinity_not_NaN (missDistance_km y))|done..].
Qed.

(** Records with equal keys keep the order of the input: with
    [by_miss_distance_sorted] and [sort_Permutation] this is what
    [Array.prototype.sort] guarantees for a consistent comparator. *)
Lemma by_miss_distance_stable l z :
  filter (tied by_miss_distance z) (sort by_miss_distance l) =
  filter (tied by_miss_distance z) l.
Proof.
  apply sort_stable.
  intros x y z' [Hzx Hxz] [Hzy Hyz]. unfold not_after, by_miss_distance in *.
  eapply (sub_tied _ _ (sort_key z')); try apply or_Infinity_not_NaN; done.
Qed.

(** Whatever follows a record keyed [Infinity] is keyed [Infinity]. *)
Lemma after_Infinity_key l r before after :
  sort by_miss_distance l = before ++ r :: after →
  sort_key r = PosInf →
  Forall (λ x, sort_key x = PosInf) after.
Proof.
  intros Hsplit Hr.
  pose proof (by_miss_distance_sorted l) as Hs. rewrite Hsplit in Hs.
  apply StronglySorted_app_1_r, StronglySorted_inv in Hs as [_ Hs].
  eapply Forall_impl; [exact Hs|]. intros x Hx. simpl in Hx.
  unfold not_after, by_miss_distance in Hx. rewrite Hr in Hx.
  apply after_PosInf; [apply or_Infinity_not_NaN|done].
Qed.

(** A record keyed below [Infinity] precedes every record keyed
    [Infinity]. *)
Lemma before_Infinity_key l r before after x :
  sort by_miss_distance l = before ++ r :: after →
  sort_key r = PosInf →
  x ∈ l → sort_key x ≠ PosInf → x ∈ before.
Proof.
  intros Hsplit Hr Hx Hkey.
  pose proof (after_Infinity_key _ _ _ _ Hsplit Hr) as Hafter.
  rewrite <- (sort_Permutation by_miss_distance), Hsplit in Hx.
  apply elem_of_app in Hx as [Hx|Hx]; [done|].
  apply elem_of_cons in Hx as [->|Hx]; [done|].
  rewrite Forall_forall in Hafter. by apply Hafter in Hx.
Qed.

Lemma last_of_Infinity_block l r :
  r ∈ l → sort_key r = PosInf →
  (∀ x, x ∈ l → sort_key x = PosInf → x = r) →
  last (sort by_miss_distance l) = Some r.
Proof.
  intros Hr Hkey Huniq.
  pose proof Hr as Hin. rewrite <- (sort_Permutation by_miss_distance) in Hin.
  apply list_elem_of_split in Hin as (before & after & Hsplit).
  pose proof (after_Infinity_key _ _ _ _ Hsplit Hkey) as Hafter.
  rewrite Hsplit.
  destruct (last (r :: after)) as [z|] eqn:Hlast.
  - assert (z ∈ r :: after) as Hz by (by eapply last_Some_elem_of).
    rewrite last_app, Hlast.
    apply elem_of_cons in Hz as [->|Hz]; [done|].
    f_equal. apply Huniq.
    + rewrite <- (sort_Permutation by_miss_distance), Hsplit.
      apply elem_of_app. right. by apply elem_of_cons; right.
    + rewrite Forall_forall in Hafter. by apply Hafter.
  - by apply last_None in Hlast.
Qed.
End AsteroidSort.

Section AsteroidClaims.
Import Asteroids.

(** C6, amended. In the list the asteroids entrypoint sorts, a record
    whose miss distance is missing is keyed [Infinity] and is placed in
    the final block of the sorted list, wherever it stood in the input:
    it is in the sorted list, whatever follows it is keyed [Infinity] as
    well, every record keyed below [Infinity] precedes it, and when it
    is the only record keyed [Infinity] it is the last element. *)
Theorem missing_distance_sorts_last (l : list asteroid) (r : asteroid) :
  r ∈ l → missDistance_km r = None →
  sort_key r = PosInf ∧
  r ∈ sort by_miss_distance l ∧
  (∀ before after, sort by_miss_distance l = before ++ r :: after →
     Forall (λ x, sort_key x = PosInf) after ∧
     ∀ x, x ∈ l → sort_key x ≠ PosInf → x ∈ before) ∧
  ((∀ x, x ∈ l → sort_key x = PosInf → x = r) →
     last (sort by_miss_distance l) = Some r).
Proof.
  intros Hr Hmissing.
  assert (sort_key r = PosInf) as Hkey by (unfold sort_key; by rewrite Hmissing).
  split_and!; [done| |intros before after Hsplit; split|].
  - by rewrite (sort_Permutation by_miss_distance).
  - by eapply after_Infinity_key.
  - intros x. by eapply before_Infinity_key.
  - by apply last_of_Infinity_block.
Qed.

Lemma missing_distance_sorts_last_witness :
  Sample.unknown ∈ [Sample.unknown; Sample.near] ∧
  missDistance_km Sample.unknown = None ∧
  sort by_miss_distance [Sample.unknown; Sample.near] = [Sample.near; Sample.unknown] ∧
  last (sort by_miss_distance [Sample.unknown; Sample.near]) = Some Sample.unknown.
Proof.
  split; [apply list_elem_of_here|].
  split; [reflexivity|].
  split; [vm_compute; reflexivity|].
  apply (missing_distance_sorts_last [Sample.unknown; Sample.near] Sample.unknown);
    [apply list_elem_of_here|reflexivity|].
  intros x Hx Hkey.
  apply elem_of_cons in Hx as [->|Hx]; [reflexivity|].
  apply list_elem_of_singleton in Hx as ->.
  vm_compute in Hkey. discriminate.
Defined.

(** C6, the claim as stated fails: a record whose miss distance is
    missing is not always the last.  Of two such records the first
    stays before the second, and a record whose miss distance is
    present can follow it. *)
Lemma missing_distance_is_not_always_last :
  missDistance_km Sample.unknown = None ∧
  sort by_miss_distance
    [Sample.unknown; Sample.asteroid_at "later" None; Sample.near] =
    [Sample.near; Sample.unknown; Sample.asteroid_at "later" None] ∧
  last (sort by_miss_distance
          [Sample.unknown; Sample.asteroid_at "later" None; Sample.near]) ≠
    Some Sample.unknown ∧
  sort by_miss_distance [Sample.unknown; Sample.impact; Sample.near] =
    [Sample.near; Sample.unknown; Sample.impact] ∧
  last (sort by_miss_distance [Sample.unknown; Sample.impact; Sample.near]) ≠
    Some Sample.unknown.
Proof.
  split; [reflexivity|].
  split; [vm_compute; reflexivity|].
  split; [vm_compute; intros [=]|].
  split; [vm_compute; reflexivity|].
  vm_compute; intros [=].
Qed.



(** C10, the claim as stated fails: [totalCount] is not computed over the
    fetched asteroids.  For a feed that announces seven objects and
    lists none it is 7. *)
Lemma totalCount_is_not_counted :
  totalCount (respond ExampleRuntime.parse_digits Sample.empty_feed "2024-01-01" "2024-01-04"
                "2024-01-01T00:00:00.000Z")
  ≠ Z.of_nat (length (flatten ExampleRuntime.parse_digits Sample.empty_feed)).
Proof. vm_compute. discriminate. Qed.

(** C10, amended. The returned [asteroids] are the first 20 elements of
    the full sorted list, hence at most 20; [totalCount] is the
    [element_count] field of the upstream feed, copied as it is;
    [hazardousCount] counts the hazardous records among all the fetched
    asteroids; [closestApproach] is the first element of the full sorted
    list, and [null] exactly when no asteroid was fetched. *)
Theorem asteroids_output_shape (parseFloat : string → num) (data : feed)
    (start end_ now_iso : string) :
  let out := respond parseFloat data start end_ now_iso in
  let all := sort by_miss_distance (flatten parseFloat data) in
  asteroids out = take 20 all ∧
  (length (asteroids out) ≤ 20)%nat ∧
  totalCount out = element_count data ∧
  hazardousCount out =
    length (filter (λ a, isPotentiallyHazardous a = true) (flatten parseFloat data)) ∧
  closestApproach out = head all ∧
  (closestApproach out = None ↔ flatten parseFloat data = []).
Proof.
  simpl. unfold sorted_asteroids. split_and!; try done.
  - rewrite length_take. lia.
  - by rewrite (sort_Permutation by_miss_distance).
  - rewrite head_None. split.
    + intros Hnil. apply Permutation_nil_r.
      by rewrite <- Hnil, (sort_Permutation by_miss_distance).
    + by intros ->.
Qed.
End AsteroidClaims.

(** ** The event loop *)

Section LoopFacts.
Context `{Runtime}.

Lemma timer_delay_in_range timeout :
  1 ≤ timeout ≤ 2147483647 → timer_delay timeout = timeout.
Proof.
  intros [H1 H2]. unfold timer_delay.
  apply Z.leb_le in H1, H2. by rewrite H1, H2.
Qed.

Lemma filter_none {A} (P : A → Prop) `{!∀ x, Decision (P x)} (l : list A) :
  (∀ x, x ∈ l → ¬ P x) → filter P l = [].
Proof.
  induction l as [|x l IH]; intros Hl; [done|].
  rewrite filter_cons_False by (apply Hl; left).
  apply IH. intros y Hy. apply Hl. by right.
Qed.

Lemma filter_seq_singleton (P : nat → Prop) `{!∀ j, Decision (P j)} (n i : nat) :
  (i < n)%nat → P i → (∀ j, (j < n)%nat → P j → j = i) →
  filter P (seq 0 n) = [i].
Proof.
  intros Hi HP Huniq.
  induction n as [|n IH]; [lia|].
  rewrite seq_S, filter_app. simpl.
  destruct (decide (i = n)) as [->|Hne].
  - rewrite filter_cons_True, filter_nil by done.
    assert (filter P (seq 0 n) = []) as ->; [|done].
    apply filter_none. intros j Hj HPj.
    apply elem_of_seq in Hj. assert (j = n) by (apply Huniq; [lia|done]). lia.
  - rewrite IH; [|lia|intros j Hj; apply Huniq; lia].
    rewrite filter_cons_False, filter_nil; [done|].
    intros HPn. apply Hne. symmetry. apply Huniq; [lia|done].
Qed.

Lemma listeners_owner s i c :
  consistent s → calls s !! i = Some c →
  listeners (controller c) s = [i].
Proof.
  intros Hs Hi. unfold listeners.
  apply filter_seq_singleton.
  - by eapply lookup_lt_Some.
  - by rewrite Hi.
  - intros j _ Hj.
    destruct (calls s !! j) as [cj|] eqn:Ej; [|done].
    simpl in Hj. injection Hj as Hj.
    by eapply (controllers_distinct s Hs j i).
Qed.

Lemma advance_eq s1 s2 :
  clock s1 = clock s2 → next_controller s1 = next_controller s2 →
  controllers s1 = controllers s2 → next_timer s1 = next_timer s2 →
  timers s1 = timers s2 → calls s1 = calls s2 →
  requests s1 = requests s2 → settled s1 = settled s2 → s1 = s2.
Proof. destruct s1, s2; simpl; by intros -> -> -> -> -> -> -> ->. Qed.

(** Every turn either lets time pass or advances one invocation. *)
Lemma step_normal e s s' :
  consistent s → step e s = Some s' →
  (∃ t, e = Elapse t ∧ clock s ≤ t ∧ s' = with_clock t s) ∨
  (∃ i c ph aborted,
      calls s !! i = Some c ∧ concerns s e i ∧
      effect e c = Some (ph, aborted) ∧ s' = advance i c ph aborted s).
Proof.
  intros Hs Hstep. destruct e as [t|id|i name msg|i status|i v|i name msg]; simpl in Hstep.
  - left. case_decide as Ht; [|done]. naive_solver.
  - right. destruct (timers s !! id) as [[due ctl]|] eqn:Etimer; [|done].
    case_decide; [|done]. injection Hstep as <-.
    destruct (timers_owned s Hs _ _ _ Etimer) as (i & c & Hi & <- & <- & Hph).
    exists i, c, timed_out, true. split_and!; [done|by simpl; rewrite Hi|by unfold effect; rewrite Hph|].
    unfold abort.
    change (listeners (controller c) (clearTimeout (timeoutId c) s))
      with (listeners (controller c) s).
    rewrite (listeners_owner s i c) by done.
    simpl. unfold abort_call. simpl. rewrite Hi, Hph.
    apply advance_eq; simpl; try done. by rewrite delete_delete_eq.
  - right. destruct (calls s !! i) as [c|] eqn:Hi; [|done].
    destruct (phase_of c) eqn:Hph; try done. injection Hstep as <-.
    exists i, c, (Rejected (Error ("Fetch failed: " +:+ msg))), false.
    split_and!; [done|done|by unfold effect; rewrite Hph|].
    by apply advance_eq.
  - right. destruct (calls s !! i) as [c|] eqn:Hi; [|done].
    destruct (phase_of c) eqn:Hph; try done.
    eexists i, c, _, false.
    split_and!; [done|done|by unfold effect; rewrite Hph|].
    destruct (ok status); injection Hstep as <-; apply advance_eq; simpl; try done.
    by rewrite delete_delete_eq.
  - right. destruct (calls s !! i) as [c|] eqn:Hi; [|done].
    destruct (phase_of c) eqn:Hph; try done. injection Hstep as <-.
    exists i, c, (Fulfilled v), false.
    split_and!; [done|done|by unfold effect; rewrite Hph|].
    apply advance_eq; simpl; try done.
    symmetry. apply delete_id.
    destruct (timers s !! timeoutId c) as [[due ctl]|] eqn:Etimer; [|done].
    destruct (timers_owned s Hs _ _ _ Etimer) as (j & cj & Hj & Htid & _ & Hphj).
    assert (j = i) as -> by (by eapply (timers_distinct s Hs)).
    congruence.
  - right. destruct (calls s !! i) as [c|] eqn:Hi; [|done].
    destruct (phase_of c) eqn:Hph; try done. injection Hstep as <-.
    exists i, c, (Rejected (HostError name msg)), false.
    split_and!; [done|done|by unfold effect; rewrite Hph|].
    apply advance_eq; simpl; try done.
    symmetry. apply delete_id.
    destruct (timers s !! timeoutId c) as [[due ctl]|] eqn:Etimer; [|done].
    destruct (timers_owned s Hs _ _ _ Etimer) as (j & cj & Hj & Htid & _ & Hphj).
    assert (j = i) as -> by (by eapply (timers_distinct s Hs)).
    congruence.
Qed.

Lemma effect_facts e c ph aborted :
  effect e c = Some (ph, aborted) →
  is_settled (phase_of c) = false ∧ ph ≠ AwaitFetch ∧
  (is_settled ph = false → ph = AwaitBody ∧ phase_of c = AwaitFetch) ∧
  (aborted = true → ph = timed_out ∧ phase_of c = AwaitFetch).
Proof.
  unfold effect.
  destruct e as [t|id|i name msg|i status|i v|i name msg], (phase_of c);
    intros [= <- <-]; try destruct (ok status); by split_and!.
Qed.

Lemma advance_lookup i c ph aborted s j cj' :
  calls s !! i = Some c →
  calls (advance i c ph aborted s) !! j = Some cj' →
  ∃ cj, calls s !! j = Some cj ∧
        controller cj' = controller cj ∧ timeoutId cj' = timeoutId cj ∧
        started cj' = started cj ∧ timeout cj' = timeout cj ∧
        resource cj' = resource cj ∧
        (j ≠ i → cj' = cj) ∧ (j = i → cj = c ∧ phase_of cj' = ph).
Proof.
  intros Hi. simpl. destruct (decide (j = i)) as [->|Hne].
  - rewrite list_lookup_alter_eq, Hi. intros [= <-]. exists c. by split_and!.
  - rewrite list_lookup_alter_ne by done. intros Hj. exists cj'. by split_and!.
Qed.

Lemma consistent_fresh now : consistent (fresh_loop now).
Proof.
  split; simpl; try done.
  intros i. split; [by intros ?%elem_of_nil|by intros (c & ? & _)].
Qed.

Lemma consistent_with_clock t s :
  consistent s → consistent (with_clock t s).
Proof. intros []. by split. Qed.

Lemma consistent_advance e i c ph aborted s :
  consistent s → calls s !! i = Some c →
  effect e c = Some (ph, aborted) →
  consistent (advance i c ph aborted s).
Proof.
  intros Hs Hi (Hc & Hph & Hpending & Haborted)%effect_facts.
  pose proof (λ j cj', advance_lookup i c ph aborted s j cj' Hi) as Hlook.
  split; cbn [advance timers calls controllers settled clock next_controller next_timer];
    fold (calls (advance i c ph aborted s)).
  - intros j cj' (cj & Hj & -> & _)%Hlook. by eapply (controllers_allocated s Hs).
  - intros j cj' (cj & Hj & _ & -> & _)%Hlook. by eapply (timers_allocated s Hs).
  - intros j k cj' ck' (cj & Hj & -> & _)%Hlook (ck & Hk & -> & _)%Hlook.
    by eapply (controllers_distinct s Hs).
  - intros j k cj' ck' (cj & Hj & _ & -> & _)%Hlook (ck & Hk & _ & -> & _)%Hlook.
    by eapply (timers_distinct s Hs).
  - intros id due ctl [Hid Htimer]%lookup_delete_Some.
    destruct (timers_owned s Hs _ _ _ Htimer) as (j & cj & Hj & Htid & Hctl & Hphj).
    exists j, cj. split_and!; try done.
    simpl. rewrite list_lookup_alter_ne; [done|]. intros ->. congruence.
  - intros j cj' Hj' Hphj.
    destruct (Hlook _ _ Hj') as (cj & Hj & -> & -> & -> & -> & _ & Hne & Heq).
    destruct (decide (j = i)) as [->|Hji]; [destruct Heq; congruence|].
    rewrite Hne in Hphj by done. simpl.
    rewrite lookup_delete_ne; [by eapply (timers_armed s Hs)|].
    intros Htid. apply Hji. symmetry. by eapply (timers_distinct s Hs).
  - intros j cj' Hj' Hphj.
    destruct (Hlook _ _ Hj') as (cj & Hj & -> & _ & _ & _ & _ & Hne & Heq).
    simpl. destruct (decide (j = i)) as [->|Hji].
    + destruct Heq as [-> Heq]; [done|]. rewrite Heq in Hphj.
      destruct aborted; [destruct Haborted as [-> _]; done|].
      by eapply (signals_live s Hs).
    + rewrite Hne in Hphj by done.
      assert (controllers s !! controller cj = Some false) by (by eapply (signals_live s Hs)).
      destruct aborted; [|done].
      rewrite lookup_insert_ne; [done|].
      intros Hctl. apply Hji. symmetry. by eapply (controllers_distinct s Hs).
  - intros k. simpl.
    assert (k ∈ settled s ∨ (k = i ∧ is_settled ph = true) ↔
            ∃ ck', alter (with_phase ph) i (calls s) !! k = Some ck' ∧
                   is_settled (phase_of ck') = true) as Hiff.
    { rewrite (settled_log s Hs). split.
      - intros [(ck & Hk & Hck)|[-> Hset]].
        + exists ck. split; [|done]. rewrite list_lookup_alter_ne; [done|].
          intros ->. congruence.
        + exists (with_phase ph c). by rewrite list_lookup_alter_eq, Hi.
      - intros (ck' & Hk' & Hck').
        destruct (decide (k = i)) as [->|Hki].
        + rewrite list_lookup_alter_eq, Hi in Hk'. injection Hk' as <-. by right.
        + rewrite list_lookup_alter_ne in Hk' by done. left. by exists ck'. }
    rewrite <- Hiff. destruct (is_settled ph).
    + rewrite elem_of_app, list_elem_of_singleton. intuition.
    + intuition congruence.
Qed.

Lemma consistent_fetchJSON url timeout s :
  consistent s → consistent (fetchJSON url timeout s).
Proof.
  intros Hs.
  assert (∀ id due ctl, timers s !! id = Some (due, ctl) → (id < next_timer s)%nat)
    as Htimers.
  { intros id due ctl (j & cj & Hj & <- & _)%(timers_owned s Hs).
    by eapply (timers_allocated s Hs). }
  split; simpl.
  - intros j cj [[_ Hj]|[_ <-]]%lookup_snoc_Some; simpl; [|lia].
    pose proof (controllers_allocated s Hs _ _ Hj). lia.
  - intros j cj [[_ Hj]|[_ <-]]%lookup_snoc_Some; simpl; [|lia].
    pose proof (timers_allocated s Hs _ _ Hj). lia.
  - intros j k cj ck [[_ Hj]|[-> <-]]%lookup_snoc_Some
      [[_ Hk]|[-> <-]]%lookup_snoc_Some; simpl; intros Heq; try done.
    + by eapply (controllers_distinct s Hs).
    + pose proof (controllers_allocated s Hs _ _ Hj). lia.
    + pose proof (controllers_allocated s Hs _ _ Hk). lia.
  - intros j k cj ck [[_ Hj]|[-> <-]]%lookup_snoc_Some
      [[_ Hk]|[-> <-]]%lookup_snoc_Some; simpl; intros Heq; try done.
    + by eapply (timers_distinct s Hs).
    + pose proof (timers_allocated s Hs _ _ Hj). lia.
    + pose proof (timers_allocated s Hs _ _ Hk). lia.
  - intros id due ctl [[<- [= <- <-]]|[Hne Hid]]%lookup_insert_Some.
    + eexists (length (calls s)), _. split; [by apply lookup_snoc_Some; right|done].
    + destruct (timers_owned s Hs _ _ _ Hid) as (j & cj & Hj & ?).
      exists j, cj. split; [|done]. apply lookup_snoc_Some. left.
      split; [by eapply lookup_lt_Some|done].
  - intros j cj [[_ Hj]|[_ <-]]%lookup_snoc_Some Hph; simpl.
    + rewrite lookup_insert_ne; [by eapply (timers_armed s Hs)|].
      pose proof (timers_allocated s Hs _ _ Hj). lia.
    + by rewrite lookup_insert_eq.
  - intros j cj [[_ Hj]|[_ <-]]%lookup_snoc_Some Hph; simpl.
    + rewrite lookup_insert_ne; [by eapply (signals_live s Hs)|].
      pose proof (controllers_allocated s Hs _ _ Hj). lia.
    + by rewrite lookup_insert_eq.
  - intros k. rewrite (settled_log s Hs). split.
    + intros (ck & Hk & Hck). exists ck. split; [|done].
      apply lookup_snoc_Some. left. split; [by eapply lookup_lt_Some|done].
    + intros (ck & [[_ Hk]|[_ <-]]%lookup_snoc_Some & Hck); [by exists ck|done].
Qed.

Lemma consistent_step e s s' :
  consistent s → step e s = Some s' → consistent s'.
Proof.
  intros Hs Hstep.
  destruct (step_normal e s s' Hs Hstep)
    as [(t & -> & Ht & ->)|(i & c & ph & aborted & Hi & _ & Heff & ->)].
  - by apply consistent_with_clock.
  - by eapply consistent_advance.
Qed.

Lemma reachable_consistent s : reachable s → consistent s.
Proof.
  induction 1; [apply consistent_fresh|by apply consistent_fetchJSON|
                by eapply consistent_step].
Qed.

Lemma reachable_steps es s s' : reachable s → steps es s = Some s' → reachable s'.
Proof.
  revert s. induction es as [|e es IH]; intros s Hs; simpl.
  - by intros [= <-].
  - destruct (step e s) as [s1|] eqn:Hstep; [|done]. simpl.
    apply IH. by eapply reachable_step.
Qed.

(** An event is about one invocation only. *)
Lemma concerns_unique e s i j :
  consistent s → is_Some (calls s !! i) →
  concerns s e i → concerns s e j → i = j.
Proof.
  intros Hs [ci Hi]. destruct e; simpl; try congruence; [done|].
  rewrite Hi. simpl. intros [= <-].
  destruct (calls s !! j) as [cj|] eqn:Hj; [|done]. simpl. intros [= Heq].
  by eapply (timers_distinct s Hs).
Qed.

(** A turn leaves alone every invocation it is not about. *)
Lemma step_frame e s s' j cj :
  consistent s → step e s = Some s' →
  calls s !! j = Some cj → ¬ concerns s e j →
  calls s' !! j = Some cj ∧
  controllers s' !! controller cj = controllers s !! controller cj ∧
  timers s' !! timeoutId cj = timers s !! timeoutId cj.
Proof.
  intros Hs Hstep Hj Hnot.
  destruct (step_normal e s s' Hs Hstep)
    as [(t & -> & Ht & ->)|(i & c & ph & aborted & Hi & Hcon & Heff & ->)];
    [done|].
  assert (i ≠ j) as Hne by (by intros ->).
  simpl. split_and!.
  - by rewrite list_lookup_alter_ne.
  - destruct aborted; [|done]. rewrite lookup_insert_ne; [done|].
    intros Heq. apply Hne. by eapply (controllers_distinct s Hs).
  - rewrite lookup_delete_ne; [done|].
    intros Heq. apply Hne. by eapply (timers_distinct s Hs).
Qed.

(** A turn moves the invocation it is about as [effect] says. *)
Lemma step_own e s s' j cj :
  consistent s → step e s = Some s' →
  calls s !! j = Some cj → concerns s e j →
  ∃ ph aborted,
    effect e cj = Some (ph, aborted) ∧
    calls s' !! j = Some (with_phase ph cj) ∧
    (aborted = true → controllers s' !! controller cj = Some true).
Proof.
  intros Hs Hstep Hj Hcon.
  destruct (step_normal e s s' Hs Hstep)
    as [(t & -> & Ht & ->)|(i & c & ph & aborted & Hi & Hcon' & Heff & ->)];
    [done|].
  assert (i = j) as -> by (by eapply (concerns_unique e s)).
  assert (c = cj) as -> by congruence.
  exists ph, aborted. split_and!; [done| |].
  - simpl. by rewrite list_lookup_alter_eq, Hj.
  - intros ->. simpl. by rewrite lookup_insert_eq.
Qed.

(** The clock does not run backwards. *)
Lemma step_clock e s s' :
  consistent s → step e s = Some s' → clock s ≤ clock s'.
Proof.
  intros Hs Hstep.
  destruct (step_normal e s s' Hs Hstep)
    as [(t & -> & Ht & ->)|(i & c & ph & aborted & _ & _ & _ & ->)]; simpl; lia.
Qed.

(** The callback of a timeout can run once the timeout is due, and not
    before. *)
Lemma timer_fires_iff id s :
  is_Some (step (TimerFires id) s) ↔
  ∃ due ctl, timers s !! id = Some (due, ctl) ∧ due ≤ clock s.
Proof.
  simpl. destruct (timers s !! id) as [[due ctl]|]; [|split].
  - case_decide as Hdue; split.
    + intros _. by exists due, ctl.
    + intros _. by eexists.
    + by intros [? ?].
    + intros (due' & ctl' & [= <- <-] & ?). lia.
  - by intros [? ?].
  - by intros (? & ? & ? & _).
Qed.

(** As long as the network does not answer its [fetch], an invocation
    waits or has timed out, and it has not timed out before its timer
    was due. *)
Lemma steps_unanswered_from es s s' i c :
  consistent s → phase_of c = AwaitFetch →
  calls s !! i = Some c ∨
    (calls s !! i = Some (with_phase timed_out c) ∧
     controllers s !! controller c = Some true ∧
     started c + timer_delay (timeout c) ≤ clock s) →
  steps es s = Some s' → Forall (λ e, ¬ answers i e) es →
  calls s' !! i = Some c ∨
    (calls s' !! i = Some (with_phase timed_out c) ∧
     controllers s' !! controller c = Some true ∧
     started c + timer_delay (timeout c) ≤ clock s').
Proof.
  intros Hs Hph. revert s Hs. induction es as [|e es IH]; intros s Hs Hi; simpl.
  - by intros [= <-] _.
  - destruct (step e s) as [s1|] eqn:Hstep; [|done]. simpl.
    intros Hsteps [Hnot Hrest]%Forall_cons.
    pose proof (step_clock e s s1 Hs Hstep) as Hclock.
    apply (IH s1 (consistent_step e s s1 Hs Hstep)); [|done..].
    destruct Hi as [Hi|(Hi & Hab & Hdue)].
    + destruct (decide (concerns s e i)) as [Hcon|Hcon].
      * destruct (step_own e s s1 i c Hs Hstep Hi Hcon)
          as (ph & aborted & Heff & Hi1 & Hab).
        unfold effect in Heff. rewrite Hph in Heff.
        destruct e as [t|id|k name msg|k status|k v|k name msg];
          simpl in Hcon, Hnot; try done.
        injection Heff as <- <-. right. split_and!; [done|by apply Hab|].
        rewrite Hi in Hcon. simpl in Hcon. injection Hcon as <-.
        destruct (proj1 (timer_fires_iff (timeoutId c) s)) as (due & ctl & Htimer & Hle);
          [by rewrite Hstep|].
        rewrite (timers_armed s Hs i c Hi Hph) in Htimer.
        injection Htimer as <- <-. lia.
      * left. by destruct (step_frame e s s1 i c Hs Hstep Hi Hcon) as (Hi1 & _).
    + right. destruct (decide (concerns s e i)) as [Hcon|Hcon].
      * destruct (step_own e s s1 i _ Hs Hstep Hi Hcon) as (ph & aborted & Heff & _).
        by apply effect_facts in Heff as [Heff _].
      * destruct (step_frame e s s1 i _ Hs Hstep Hi Hcon) as (Hi1 & Hctl & _).
        split_and!; [done| |lia]. simpl in Hctl. by rewrite Hctl.
Qed.

Lemma steps_unanswered es s s' i c :
  consistent s → calls s !! i = Some c → phase_of c = AwaitFetch →
  steps es s = Some s' → Forall (λ e, ¬ answers i e) es →
  calls s' !! i = Some c ∨
    (calls s' !! i = Some (with_phase timed_out c) ∧
     controllers s' !! controller c = Some true ∧
     started c + timer_delay (timeout c) ≤ clock s').
Proof. intros Hs Hi Hph. apply steps_unanswered_from; [done..|by left]. Qed.

(** A turn that is about one invocation leaves the number of invocations
    and every other invocation as they are. *)
Lemma step_others e s s' i :
  consistent s → step e s = Some s' → is_Some (calls s !! i) → concerns s e i →
  ∀ j, j ≠ i → calls s' !! j = calls s !! j.
Proof.
  intros Hs Hstep Hi Hcon j Hne.
  destruct (calls s !! j) as [cj|] eqn:Hj.
  - eapply (step_frame e s s' j cj); [done..|].
    intros Hcon'. apply Hne. symmetry. by eapply (concerns_unique e s).
  - apply lookup_ge_None in Hj. apply lookup_ge_None.
    destruct (step_normal e s s' Hs Hstep)
      as [(t & -> & _ & ->)|(k & ck & ph & aborted & _ & _ & _ & ->)]; [done|].
    simpl. by rewrite length_alter.
Qed.
End LoopFacts.

Section LoopClaims.
Context `{Runtime}.

Lemma reachable_launch tasks s : reachable s → reachable (launch tasks s).
Proof.
  revert s. induction tasks as [|t tasks IH]; intros s Hs; [done|].
  simpl. apply IH. by apply reachable_fetchJSON.
Qed.

(** C1. In every state the loop can reach, each invocation of
    [fetchJSON] has a controller and a timer of its own, and a pending
    timer aborts the controller of the invocation that armed it; hence a
    turn that is about another invocation (its failure, its response or
    the firing of its timer) leaves an invocation as it is: same phase,
    signal not aborted, timer still pending. *)
Theorem calls_are_isolated e s s' j cj :
  reachable s → step e s = Some s' →
  calls s !! j = Some cj → ¬ concerns s e j →
  calls s' !! j = Some cj ∧
  controllers s' !! controller cj = controllers s !! controller cj ∧
  timers s' !! timeoutId cj = timers s !! timeoutId cj ∧
  (is_settled (phase_of cj) = false →
     controllers s' !! controller cj = Some false) ∧
  (∀ i ci, calls s !! i = Some ci → i ≠ j →
     controller ci ≠ controller cj ∧ timeoutId ci ≠ timeoutId cj) ∧
  (∀ id due ctl, timers s !! id = Some (due, ctl) →
     ∃ i ci, calls s !! i = Some ci ∧ timeoutId ci = id ∧ controller ci = ctl).
Proof.
  intros Hs%reachable_consistent Hstep Hj Hnot.
  destruct (step_frame e s s' j cj Hs Hstep Hj Hnot) as (Hj' & Hctl & Htimer).
  split_and!; try done.
  - intros Hpending. rewrite Hctl. by eapply (signals_live s Hs).
  - intros i ci Hi Hne. split; intros Heq; apply Hne.
    + by eapply (controllers_distinct s Hs).
    + by eapply (timers_distinct s Hs).
  - intros id due ctl (i & ci & Hi & Hid & Hc & _)%(timers_owned s Hs).
    by exists i, ci.
Qed.

(** C5, amended. An invocation of [fetchJSON] with a timeout between 1
    and 2^31-1 ms arms a timer due [timeout] ms after the invocation.
    As long as the network does not answer its [fetch], one of two
    things holds.  Either the invocation still waits, its signal is not
    aborted and the timer is still pending with the same due time: the
    runtime can run its callback from the due time on and not before
    (how long after is the scheduling slack of the runtime), and when it
    does, the signal of the invocation is aborted, the invocation is
    rejected with [Error("Fetch failed: " + m)], [m] being the message
    of the abort, and every other invocation is left as it is.  Or the
    callback has run, not before the due time, and the invocation is
    rejected in that way. *)
Theorem unanswered_fetch_times_out es s s' i c :
  reachable s → calls s !! i = Some c → phase_of c = AwaitFetch →
  1 ≤ timeout c ≤ 2147483647 →
  steps es s = Some s' → Forall (λ e, ¬ answers i e) es →
  timers s !! timeoutId c = Some (started c + timeout c, controller c) ∧
  ((calls s' !! i = Some c ∧
    controllers s' !! controller c = Some false ∧
    timers s' !! timeoutId c = Some (started c + timeout c, controller c) ∧
    (is_Some (step (TimerFires (timeoutId c)) s') ↔ started c + timeout c ≤ clock s') ∧
    (∀ s2, step (TimerFires (timeoutId c)) s' = Some s2 →
       calls s2 !! i =
         Some (with_phase (Rejected (Error ("Fetch failed: " +:+ abort_message))) c) ∧
       controllers s2 !! controller c = Some true ∧
       ∀ j, j ≠ i → calls s2 !! j = calls s' !! j)) ∨
   (calls s' !! i =
      Some (with_phase (Rejected (Error ("Fetch failed: " +:+ abort_message))) c) ∧
    controllers s' !! controller c = Some true ∧
    timers s' !! timeoutId c = None ∧
    started c + timeout c ≤ clock s')).
Proof.
  intros Hreach Hi Hph Hrange Hsteps Hquiet.
  pose proof (reachable_consistent s Hreach) as Hs.
  pose proof (reachable_consistent s' (reachable_steps es s s' Hreach Hsteps)) as Hs'.
  pose proof (timers_armed s Hs i c Hi Hph) as Harmed.
  pose proof (timer_delay_in_range (timeout c) Hrange) as Hdelay.
  rewrite Hdelay in Harmed. split; [done|].
  destruct (steps_unanswered es s s' i c Hs Hi Hph Hsteps Hquiet)
    as [Hi'|(Hi' & Hab & Hdue)].
  - left.
    pose proof (timers_armed s' Hs' i c Hi' Hph) as Harmed'.
    rewrite Hdelay in Harmed'.
    split_and!; [done| |done| |].
    + apply (signals_live s' Hs' i c Hi'). by rewrite Hph.
    + rewrite timer_fires_iff, Harmed'. split.
      * by intros (due & ctl & [= <- <-] & Hle).
      * intros Hle. by eexists _, _.
    + intros s2 Hfire.
      assert (concerns s' (TimerFires (timeoutId c)) i) as Hcon
        by (by simpl; rewrite Hi').
      destruct (step_own _ s' s2 i c Hs' Hfire Hi' Hcon)
        as (ph & aborted & Heff & Hi2 & Hab).
      unfold effect in Heff. rewrite Hph in Heff. injection Heff as <- <-.
      split_and!; [done|by apply Hab|].
      by apply (step_others _ s' s2 i Hs' Hfire).
  - right. rewrite Hdelay in Hdue. split_and!; [done|done| |done].
    destruct (timers s' !! timeoutId c) as [[due ctl]|] eqn:Htimer; [|done].
    destruct (timers_owned s' Hs' _ _ _ Htimer) as (j & cj & Hj & Htid & _ & Hphj).
    assert (j = i) as -> by (by eapply (timers_distinct s' Hs')).
    rewrite Hi' in Hj. by injection Hj as <-.
Qed.
End LoopClaims.

Section LoopExamples.
Import ExampleRuntime.

Lemma calls_are_isolated_witness :
  let s := launch (report_tasks true 0) (fresh_loop 0) in
  let e := FetchRejects 0 "TypeError" "fetch failed" in
  ∃ s' cj,
    step e s = Some s' ∧ calls s !! 1%nat = Some cj ∧
    phase_of cj = AwaitFetch ∧
    calls s' !! 1%nat = Some cj ∧
    controllers s' !! controller cj = Some false.
Proof.
  intros s e.
  eexists _, _. split; [vm_compute; reflexivity|].
  split; [vm_compute; reflexivity|].
  split; [reflexivity|].
  edestruct (λ s' cj, calls_are_isolated e s s' 1%nat cj) as (Hcall & _ & _ & Hsignal & _);
    [by apply reachable_launch, reachable_fresh
    |vm_compute; reflexivity|vm_compute; reflexivity|simpl; lia|].
  split; [exact Hcall|by apply Hsignal].
Defined.

(** C5, the claim as stated fails: when the timer of an invocation
    fires, the invocation is rejected with a plain [Error] whose message
    is ["Fetch failed: "] followed by the message of the abort; it is
    not a [TimeoutError] and its message is not
    ["timed out after 15000ms"]. *)
Lemma timeout_is_not_a_TimeoutError :
  ∃ s' c,
    steps [Elapse 15000; TimerFires 0] (fetchJSON iss_url 15000 (fresh_loop 0)) = Some s' ∧
    calls s' !! 0%nat = Some c ∧
    phase_of c = Rejected (Error "Fetch failed: The operation was aborted.") ∧
    phase_of c ≠ Rejected (HostError "TimeoutError" "timed out after 15000ms") ∧
    phase_of c ≠ Rejected (Error "timed out after 15000ms").
Proof.
  eexists _, _. split; [vm_compute; reflexivity|].
  split; [vm_compute; reflexivity|]. by split_and!.
Qed.

Lemma unanswered_fetch_times_out_witness :
  let s := fetchJSON iss_url 15000 (fresh_loop 0) in
  ∃ s' c,
    steps [Elapse 15006; TimerFires 0] s = Some s' ∧
    calls s !! 0%nat = Some c ∧
    calls s' !! 0%nat =
      Some (with_phase (Rejected (Error ("Fetch failed: " +:+ abort_message))) c) ∧
    controllers s' !! controller c = Some true ∧
    started c + timeout c ≤ clock s'.
Proof.
  intros s.
  destruct (steps [Elapse 15006; TimerFires 0] s) as [s'|] eqn:Hsteps;
    [|vm_compute in Hsteps; discriminate].
  destruct (calls s !! 0%nat) as [c|] eqn:Hc; [|vm_compute in Hc; discriminate].
  exists s', c. split; [reflexivity|]. split; [reflexivity|].
  assert (phase_of c = AwaitFetch ∧ timeout c = 15000) as [Hph Hto]
    by (vm_compute in Hc; injection Hc as <-; split; reflexivity).
  destruct (unanswered_fetch_times_out [Elapse 15006; TimerFires 0] s s' 0%nat c)
    as (_ & [(Hwait & _)|(Hfired & Hab & _ & Hdue)]).
  - apply reachable_fetchJSON, reachable_fresh.
  - exact Hc.
  - exact Hph.
  - rewrite Hto. lia.
  - exact Hsteps.
  - repeat constructor; simpl; tauto.
  - exfalso. vm_compute in Hsteps. injection Hsteps as <-.
    vm_compute in Hc. injection Hc as <-. vm_compute in Hwait. discriminate.
  - split_and!; [exact Hfired|exact Hab|exact Hdue].
Defined.
End LoopExamples.

(** ** [Promise.all] *)

Section AggregationFacts.
Context `{Runtime}.

Lemma head_omap_is_Some {A B} (f : A → option B) (l : list A) x y :
  x ∈ l → f x = Some y → is_Some (head (omap f l)).
Proof.
  induction 1 as [x l|x z l _ IH]; intros Hx; simpl.
  - rewrite Hx. by eexists.
  - destruct (f z); [by eexists|by apply IH].
Qed.

Lemma head_omap_Some {A B} (f : A → option B) (l : list A) y :
  head (omap f l) = Some y → ∃ x, x ∈ l ∧ f x = Some y.
Proof.
  induction l as [|z l IH]; simpl; [done|].
  destruct (f z) as [y'|] eqn:Hz.
  - intros [= ->]. exists z. split; [left|done].
  - intros (x & Hx & Hfx)%IH. exists x. split; [by right|done].
Qed.

(** The first value of [omap f l] comes from the first element of [l]
    on which [f] is defined. *)
Lemma head_omap_first {A B} (f : A → option B) (l : list A) y :
  head (omap f l) = Some y →
  ∃ before x after, l = before ++ x :: after ∧ f x = Some y ∧
                    ∀ z, z ∈ before → f z = None.
Proof.
  induction l as [|z l IH]; simpl; [done|].
  destruct (f z) as [y'|] eqn:Hz.
  - intros [= ->]. exists [], z, l. split_and!; [done|done|]. by intros ? ?%elem_of_nil.
  - intros (before & x & after & -> & Hx & Hbefore)%IH.
    exists (z :: before), x, after. split_and!; [done|done|].
    intros w [->|Hw]%elem_of_cons; [done|by apply Hbefore].
Qed.

Lemma omap_agree {A B} (f g : A → option B) (l : list A) :
  (∀ x, x ∈ l → f x = g x) → omap f l = omap g l.
Proof.
  induction l as [|z l IH]; intros Hfg; [done|].
  assert (omap f l = omap g l) as IH' by (apply IH; intros x Hx; apply Hfg; by right).
  cbn. rewrite (Hfg z) by left. destruct (g z); simpl; by rewrite IH'.
Qed.

Lemma omap_none {A B} (f : A → option B) (l : list A) :
  (∀ x, x ∈ l → f x = None) → omap f l = [].
Proof.
  induction l as [|z l IH]; intros Hf; [done|].
  cbn. rewrite (Hf z) by left. apply IH. intros x Hx. apply Hf. by right.
Qed.

Lemma rejection_of_Some els s i e :
  rejection_of els s i = Some e ↔
  (∃ el, el ∈ els ∧ promise el = i ∧ caught el = false) ∧
  phase_of <$> calls s !! i = Some (Rejected e).
Proof.
  unfold rejection_of.
  destruct (existsb _ els) eqn:Hex.
  - apply existsb_exists in Hex as (el & Hel%list_elem_of_In & Hb).
    apply andb_true_iff in Hb as [Hp%bool_decide_eq_true Hc%negb_true_iff].
    split.
    + intros Hph. split; [by exists el|].
      destruct (phase_of <$> calls s !! i) as [[]|]; congruence.
    + intros [_ ->]. done.
  - split; [done|]. intros [(el & Hel & Hp & Hc) _].
    assert (existsb (λ el, bool_decide (promise el = i) && negb (caught el)) els = true)
      as Hex'; [|congruence].
    apply existsb_exists. exists el. split; [by apply list_elem_of_In|].
    rewrite Hc. simpl. by rewrite bool_decide_eq_true_2.
Qed.

(** [Promise.all] rejects with the reason of an element without
    [catch] that has rejected. *)
Lemma first_rejection_sound els s e :
  first_rejection els s = Some e →
  ∃ el, el ∈ els ∧ caught el = false ∧
        phase_of <$> calls s !! promise el = Some (Rejected e).
Proof.
  intros (i & _ & [(el & Hel & <- & Hc) Hph]%rejection_of_Some)%head_omap_Some.
  by exists el.
Qed.

(** As soon as an element without [catch] has rejected, [Promise.all]
    has. *)
Lemma first_rejection_complete els s el e :
  consistent s → el ∈ els → caught el = false →
  phase_of <$> calls s !! promise el = Some (Rejected e) →
  is_Some (first_rejection els s).
Proof.
  intros Hs Hel Hc Hph.
  apply (head_omap_is_Some _ _ (promise el) e).
  - apply (settled_log s Hs).
    destruct (calls s !! promise el) as [c|]; [|done].
    exists c. split; [done|]. simpl in Hph. injection Hph as ->. done.
  - apply rejection_of_Some. split; [by exists el|done].
Qed.

Lemma Promise_all_Failed els s e :
  Promise_all els s = Failed e ↔ first_rejection els s = Some e.
Proof.
  unfold Promise_all. destruct (first_rejection els s).
  - split; congruence.
  - destruct (mapM _ els); split; congruence.
Qed.

Lemma Promise_all_Resolved els s vs :
  Promise_all els s = Resolved vs ↔
  first_rejection els s = None ∧ mapM (resolved_value s) els = Some vs.
Proof.
  unfold Promise_all. destruct (first_rejection els s).
  - split; [done|by intros []].
  - destruct (mapM _ els).
    + split; [by intros [= ->]|by intros [_ [= ->]]].
    + split; [done|by intros []].
Qed.

Lemma resolved_value_Some s el v :
  resolved_value s el = Some v ↔
  phase_of <$> calls s !! promise el = Some (Fulfilled v) ∨
  (caught el = true ∧ v = JNull ∧
   ∃ e, phase_of <$> calls s !! promise el = Some (Rejected e)).
Proof.
  unfold resolved_value, element_state.
  destruct (phase_of <$> calls s !! promise el) as [[| |v'|e]|].
  - split; [done|]. by intros [|(_ & _ & ? & ?)].
  - split; [done|]. by intros [|(_ & _ & ? & ?)].
  - split; [intros [= ->]; by left|]. by intros [[= ->]|(_ & _ & ? & ?)].
  - destruct (caught el).
    + split; [intros [= <-]; right; eauto|]. by intros [|(_ & -> & _)].
    + split; [done|]. by intros [|(? & _)].
  - split; [done|]. by intros [|(_ & _ & ? & ?)].
Qed.

(** A settled invocation stays as it is. *)
Lemma step_settled e s s' i c :
  consistent s → step e s = Some s' →
  calls s !! i = Some c → is_settled (phase_of c) = true →
  calls s' !! i = Some c.
Proof.
  intros Hs Hstep Hi Hset.
  destruct (decide (concerns s e i)) as [Hcon|Hcon].
  - destruct (step_own e s s' i c Hs Hstep Hi Hcon) as (ph & ab & Heff & _).
    apply effect_facts in Heff as [Heff _]. congruence.
  - by destruct (step_frame e s s' i c Hs Hstep Hi Hcon).
Qed.

(** A turn appends to the log the invocations it settles. *)
Lemma step_log e s s' :
  consistent s → step e s = Some s' →
  ∃ extra, settled s' = settled s ++ extra ∧
           ∀ k, k ∈ extra →
             ∃ c, calls s !! k = Some c ∧ is_settled (phase_of c) = false.
Proof.
  intros Hs Hstep.
  destruct (step_normal e s s' Hs Hstep)
    as [(t & -> & Ht & ->)|(i & c & ph & aborted & Hi & Hcon & Heff & ->)].
  - exists []. split; [by rewrite app_nil_r|]. by intros k ?%elem_of_nil.
  - apply effect_facts in Heff as [Hc _]. simpl. destruct (is_settled ph).
    + exists [i]. split; [done|]. intros k ->%list_elem_of_singleton. by exists c.
    + exists []. split; [by rewrite app_nil_r|]. by intros k ?%elem_of_nil.
Qed.

Lemma rejection_of_settled e s s' els k :
  consistent s → step e s = Some s' → k ∈ settled s →
  rejection_of els s' k = rejection_of els s k.
Proof.
  intros Hs Hstep (c & Hk & Hset)%(settled_log s Hs).
  unfold rejection_of.
  by rewrite (step_settled e s s' k c Hs Hstep Hk Hset), Hk.
Qed.

Lemma resolved_value_settled s el v :
  resolved_value s el = Some v →
  ∃ c, calls s !! promise el = Some c ∧ is_settled (phase_of c) = true.
Proof.
  intros Hv%resolved_value_Some.
  destruct (calls s !! promise el) as [c|]; simpl in Hv.
  - exists c. split; [done|].
    destruct Hv as [[= ->]|(_ & _ & e' & [= ->])]; done.
  - by destruct Hv as [|(_ & _ & ? & ?)].
Qed.

Lemma resolved_value_stable e s s' el v :
  consistent s → step e s = Some s' →
  resolved_value s el = Some v → resolved_value s' el = Some v.
Proof.
  intros Hs Hstep Hv.
  destruct (resolved_value_settled s el v Hv) as (c & Hc & Hset).
  unfold resolved_value, element_state in *.
  by rewrite (step_settled e s s' _ c Hs Hstep Hc Hset), <- Hc.
Qed.

(** Once settled, [Promise.all] keeps its state. *)
Lemma Promise_all_stable e s s' els :
  consistent s → step e s = Some s' →
  Promise_all els s ≠ Pending → Promise_all els s' = Promise_all els s.
Proof.
  intros Hs Hstep Hsettled.
  destruct (step_log e s s' Hs Hstep) as (extra & Hlog & Hextra).
  assert (omap (rejection_of els s') (settled s) =
          omap (rejection_of els s) (settled s)) as Hold.
  { apply omap_agree. intros k Hk. by eapply rejection_of_settled. }
  destruct (Promise_all els s) as [|vs|err] eqn:Hall; [done| |].
  - apply Promise_all_Resolved in Hall as [Hnone Hvs].
    apply Promise_all_Resolved. split.
    + unfold first_rejection in *. rewrite Hlog, omap_app, Hold.
      apply head_None in Hnone. rewrite Hnone. simpl.
      apply head_None, omap_none. intros k (c & Hk & Hpending)%Hextra.
      destruct (rejection_of els s' k) as [err|] eqn:Hrej; [|done].
      apply rejection_of_Some in Hrej as [(el & Hel & <- & Hc) _].
      apply mapM_Some in Hvs.
      apply list_elem_of_lookup in Hel as [n Hn].
      destruct (Forall2_lookup_l _ _ _ _ _ Hvs Hn) as (v & _ & Hv).
      destruct (resolved_value_settled s el v Hv) as (c' & Hc' & Hset).
      congruence.
    + apply mapM_Some. apply mapM_Some in Hvs.
      eapply Forall2_impl; [exact Hvs|]. intros el v. by eapply resolved_value_stable.
  - apply Promise_all_Failed in Hall. apply Promise_all_Failed.
    unfold first_rejection in *. rewrite Hlog, omap_app, Hold.
    destruct (omap (rejection_of els s) (settled s)); [done|]. done.
Qed.

(** [Promise.all] rejects in the very turn in which an element without
    [catch] rejects, with the reason of that element. *)
Lemma Promise_all_fails_at_once e s s' els el err :
  consistent s → step e s = Some s' →
  Promise_all els s = Pending →
  el ∈ els → caught el = false →
  phase_of <$> calls s' !! promise el = Some (Rejected err) →
  Promise_all els s' = Failed err.
Proof.
  intros Hs Hstep Hpending Hel Hcatch Hph.
  assert (first_rejection els s = None) as Hnone.
  { unfold Promise_all in Hpending. by destruct (first_rejection els s). }
  assert (phase_of <$> calls s !! promise el ≠ Some (Rejected err)) as Hbefore.
  { intros Hph0.
    destruct (first_rejection_complete els s el err Hs Hel Hcatch Hph0) as [? ?].
    congruence. }
  destruct (step_normal e s s' Hs Hstep)
    as [(t & -> & Ht & ->)|(i & c & ph & aborted & Hi & Hcon & Heff & ->)]; [done|].
  destruct (decide (promise el = i)) as [Heq|Hne]; simpl in Hph.
  - rewrite Heq, list_lookup_alter_eq, Hi in Hph. simpl in Hph. injection Hph as ->.
    apply Promise_all_Failed. unfold first_rejection. cbn [advance settled is_settled].
    rewrite omap_app.
    assert (omap (rejection_of els (advance i c (Rejected err) aborted s)) (settled s) = [])
      as ->.
    { rewrite (omap_agree _ (rejection_of els s)).
      - unfold first_rejection in Hnone. by apply head_None in Hnone.
      - intros k Hk.
        by apply (rejection_of_settled e s _ els k Hs Hstep Hk). }
    assert (rejection_of els (advance i c (Rejected err) aborted s) i = Some err) as Hrej.
    { apply rejection_of_Some. split; [by exists el|].
      simpl. by rewrite list_lookup_alter_eq, Hi. }
    simpl. by rewrite Hrej.
  - by rewrite list_lookup_alter_ne in Hph.
Qed.

Lemma elements_lookup {O} (h : handler O) k :
  elements h !! k = (λ t, {| promise := k; caught := with_catch t |}) <$> tasks h !! k.
Proof.
  unfold elements, elements_from. rewrite list_lookup_imap.
  by destruct (tasks h !! k).
Qed.

Lemma elem_of_elements {O} (h : handler O) el :
  el ∈ elements h ↔
  ∃ k t, tasks h !! k = Some t ∧ promise el = k ∧ caught el = with_catch t.
Proof.
  rewrite list_elem_of_lookup. split.
  - intros (k & Hk). rewrite elements_lookup in Hk.
    apply fmap_Some in Hk as (t & Ht & ->). by exists k, t.
  - intros (k & t & Ht & Hp & Hc). exists k. rewrite elements_lookup, Ht.
    simpl. destruct el; simpl in *; congruence.
Qed.
End AggregationFacts.

(** ** Handlers in flight *)

Section RunFacts.
Context `{Runtime} {O : Type} (h : handler O).

Lemma run_ok_resume s :
  consistent s → run_ok h {| state := s; outcome := resume h s None |}.
Proof.
  intros Hs. split; [done|]. simpl.
  destruct (Promise_all (elements h) s) as [|vs|e] eqn:Hall; simpl; eauto.
Qed.

Lemma run_ok_start now : run_ok h (start h now).
Proof.
  apply run_ok_resume, reachable_consistent, reachable_launch, reachable_fresh.
Qed.

Lemma run_ok_step e r r' : run_ok h r → run_step h e r = Some r' → run_ok h r'.
Proof.
  intros [Hs Hout]. unfold run_step.
  destruct (step e (state r)) as [s'|] eqn:Hstep; [|done].
  simpl. intros [= <-].
  pose proof (consistent_step e _ _ Hs Hstep) as Hs'.
  destruct (outcome r) as [o|] eqn:Ho.
  - split; [done|]. simpl.
    rewrite (Promise_all_stable e (state r) s'); [done..|].
    by destruct Hout as [(? & -> & _)|(? & ? & -> & _)].
  - by apply run_ok_resume.
Qed.

Lemma run_ok_steps es r r' : run_ok h r → run_steps h es r = Some r' → run_ok h r'.
Proof.
  revert r. induction es as [|e es IH]; intros r Hr; simpl.
  - by intros [= <-].
  - destruct (run_step h e r) as [r1|] eqn:Hstep; [|done]. simpl.
    apply IH. by eapply run_ok_step.
Qed.

(** The loop of a handler in flight takes the turns of the loop: the
    reaction of the handler does nothing to the invocations. *)
Lemma run_steps_state es r r' :
  run_steps h es r = Some r' → steps es (state r) = Some (state r').
Proof.
  revert r. induction es as [|e es IH]; intros r; simpl.
  - by intros [= <-].
  - unfold run_step at 1. destruct (step e (state r)) as [s1|]; [|done]. simpl.
    by intros ?%IH.
Qed.

Lemma run_ok_Failed r e :
  run_ok h r → Promise_all (elements h) (state r) = Failed e →
  outcome r = Some (Throw e).
Proof.
  intros [_ Hout] Hall. rewrite Hall in Hout.
  destruct (outcome r) as [o|]; [|done].
  by destruct Hout as [(? & [= <-] & ->)|(? & ? & ? & _)].
Qed.

Lemma run_ok_Resolved r vs :
  run_ok h r → Promise_all (elements h) (state r) = Resolved vs →
  ∃ t, outcome r = Some (continuation h vs t).
Proof.
  intros [_ Hout] Hall. rewrite Hall in Hout.
  destruct (outcome r) as [o|]; [|done].
  destruct Hout as [(? & ? & _)|(? & t & [= <-] & ->)]; [done|]. by exists t.
Qed.

(** A rejected task without [catch] makes the handler throw. *)
Lemma run_required_failure r k t c err :
  run_ok h r → tasks h !! k = Some t → with_catch t = false →
  calls (state r) !! k = Some c → phase_of c = Rejected err →
  ∃ e, outcome r = Some (Throw e).
Proof.
  intros Hok Ht Hcatch Hc Hph.
  destruct (first_rejection_complete (elements h) (state r)
              {| promise := k; caught := false |} err (proj1 Hok)) as [e He].
  - apply elem_of_elements. by exists k, t.
  - done.
  - simpl. rewrite Hc. simpl. by rewrite Hph.
  - exists e. apply run_ok_Failed; [done|]. by apply Promise_all_Failed.
Qed.

(** The handler throws in the very turn in which a task without [catch]
    rejects, unless it has finished before. *)
Lemma run_fails_at_once ev r r' k t c err :
  run_ok h r → outcome r = None → run_step h ev r = Some r' →
  tasks h !! k = Some t → with_catch t = false →
  calls (state r') !! k = Some c → phase_of c = Rejected err →
  outcome r' = Some (Throw err).
Proof.
  intros [Hs Hout] Hnone. rewrite Hnone in Hout. unfold run_step.
  destruct (step ev (state r)) as [s'|] eqn:Hstep; [|done]. simpl.
  intros [= <-] Ht Hcatch Hc Hph. simpl in *. rewrite Hnone. simpl.
  rewrite (Promise_all_fails_at_once ev (state r) s' (elements h)
             {| promise := k; caught := false |} err); try done.
  - apply elem_of_elements. by exists k, t.
  - simpl. rewrite Hc. simpl. by rewrite Hph.
Qed.

(** What a handler throws is the rejection of a task without [catch]
    or what its continuation throws. *)
Lemma run_throws r e :
  run_ok h r → outcome r = Some (Throw e) →
  (∃ k t c, tasks h !! k = Some t ∧ with_catch t = false ∧
            calls (state r) !! k = Some c ∧ phase_of c = Rejected e) ∨
  (∃ vs t, Promise_all (elements h) (state r) = Resolved vs ∧
           continuation h vs t = Throw e).
Proof.
  intros [Hs Hout] Ho. rewrite Ho in Hout.
  destruct Hout as [(e' & Hall & [= <-])|(vs & t & Hall & Hcont)].
  - left. apply Promise_all_Failed, first_rejection_sound in Hall as (el & Hel & Hc & Hph).
    apply elem_of_elements in Hel as (k & t & Ht & Hp & Hcatch).
    rewrite Hp in Hph. destruct (calls (state r) !! k) as [c|] eqn:Hk; [|done].
    simpl in Hph. exists k, t, c. split_and!; [done|congruence|done|congruence].
  - right. by exists vs, t.
Qed.
End RunFacts.

Section AggregationClaims.
Context `{Runtime}.

Lemma report_tasks_lookup includeAsteroids now k t :
  report_tasks includeAsteroids now !! k = Some t →
  (with_catch t = true ↔ k = 2%nat) ∧
  (k = 2%nat → task_url t = iss_url ∧ task_timeout t = 15000).
Proof.
  destruct includeAsteroids, k as [|[|[|[|k]]]]; simpl; intros [= <-]; simpl;
    (split; [split; done|done]).
Qed.

(** C2, amended. In the report only the fetch of the ISS position has
    its error captured, as [null], by [.catch(() => null)].  The error
    of any other task is not captured: in the very turn in which such a
    task fails while the handler waits, whatever the state of the other
    tasks, the handler throws the error of that task; what
    [Promise.all] has rejected with is the error of the first task
    without [catch] to have failed, in the order of settlement.
    [Promise.all] fulfils only when every task has settled, and hands
    [null] to the handler in the place of a failed ISS fetch. *)
Theorem report_throws_the_first_failure includeAsteroids now es r :
  run_steps (report_entry includeAsteroids now) es
    (start (report_entry includeAsteroids now) now) = Some r →
  (∀ k t, report_tasks includeAsteroids now !! k = Some t →
     (with_catch t = true ↔ k = 2%nat) ∧ (k = 2%nat → task_url t = iss_url)) ∧
  (∀ ev r' k t c err,
     outcome r = None →
     run_step (report_entry includeAsteroids now) ev r = Some r' →
     report_tasks includeAsteroids now !! k = Some t → k ≠ 2%nat →
     calls (state r') !! k = Some c → phase_of c = Rejected err →
     outcome r' = Some (Throw err)) ∧
  (∀ e, Promise_all (elements (report_entry includeAsteroids now)) (state r) = Failed e →
     outcome r = Some (Throw e) ∧
     ∃ k c before after,
       k ≠ 2%nat ∧ is_Some (report_tasks includeAsteroids now !! k) ∧
       calls (state r) !! k = Some c ∧ phase_of c = Rejected e ∧
       settled (state r) = before ++ k :: after ∧
       ∀ j cj ej, j ∈ before → j ≠ 2%nat →
         is_Some (report_tasks includeAsteroids now !! j) →
         calls (state r) !! j = Some cj → phase_of cj ≠ Rejected ej) ∧
  (∀ vs, Promise_all (elements (report_entry includeAsteroids now)) (state r) = Resolved vs →
     (∀ k, is_Some (report_tasks includeAsteroids now !! k) →
        ∃ c, calls (state r) !! k = Some c ∧ is_settled (phase_of c) = true) ∧
     (∀ c err, calls (state r) !! 2%nat = Some c → phase_of c = Rejected err →
        vs !! 2%nat = Some JNull)).
Proof.
  intros Hrun.
  pose proof (run_ok_steps _ es _ r (run_ok_start _ now) Hrun) as Hok.
  set (h := report_entry includeAsteroids now) in *.
  assert (∀ k t, tasks h !! k = Some t → k ≠ 2%nat → with_catch t = false) as Hcatch.
  { intros k t Ht Hk. destruct (report_tasks_lookup _ _ _ _ Ht) as [Hiff _].
    destruct (with_catch t); [|done]. by destruct Hk; apply Hiff. }
  split_and!.
  - intros k t Ht. destruct (report_tasks_lookup _ _ _ _ Ht) as [Hiff Hiss].
    split; [done|]. by intros [? _]%Hiss.
  - intros ev r' k t c err Hnone Hstep Ht Hk Hc Hph.
    by apply (run_fails_at_once h ev r r' k t c err Hok Hnone Hstep Ht (Hcatch k t Ht Hk)).
  - intros e Hall. split; [by apply (run_ok_Failed h r e Hok)|].
    apply Promise_all_Failed in Hall.
    destruct (head_omap_first _ _ _ Hall) as (before & k & after & Hlog & Hrej & Hbefore).
    apply rejection_of_Some in Hrej as [(el & Hel & Hp & Hc) Hph].
    apply elem_of_elements in Hel as (k' & t & Ht & Hp' & Hc').
    assert (k' = k) as -> by congruence.
    destruct (calls (state r) !! k) as [c|] eqn:Hk; [|done]. simpl in Hph.
    exists k, c, before, after. split_and!; [|by eexists|done|congruence|done|].
    + intros ->. destruct (report_tasks_lookup _ _ _ _ Ht) as [Hiff _].
      assert (with_catch t = true) by (by apply Hiff). congruence.
    + intros j cj ej Hj Hne [tj Htj] Hcj Hphj.
      assert (rejection_of (elements h) (state r) j = Some ej) as Hrej; [|].
      * apply rejection_of_Some. split; [|by rewrite Hcj; simpl; rewrite Hphj].
        exists {| promise := j; caught := false |}. split_and!; [|done..].
        apply elem_of_elements. exists j, tj. split_and!; [done..|].
        simpl. symmetry. by apply (Hcatch j tj).
      * rewrite (Hbefore j Hj) in Hrej. discriminate.
  - intros vs [_ Hvs%mapM_Some]%Promise_all_Resolved. split.
    + intros k [t Ht].
      assert (elements h !! k = Some {| promise := k; caught := with_catch t |}) as Hel
        by (subst h; rewrite elements_lookup; simpl; by rewrite Ht).
      destruct (Forall2_lookup_l _ _ _ _ _ Hvs Hel) as (v & _ & Hv).
      by apply resolved_value_settled in Hv.
    + intros c err Hc Hph.
      assert (elements h !! 2%nat = Some {| promise := 2; caught := true |}) as Hel
        by (subst h; rewrite elements_lookup; by destruct includeAsteroids).
      destruct (Forall2_lookup_l _ _ _ _ _ Hvs Hel) as (v & Hv & Hres).
      apply resolved_value_Some in Hres as [Hful|(_ & -> & _)]; [|done].
      simpl in Hful. rewrite Hc in Hful. simpl in Hful. congruence.
Qed.

Lemma launch_calls tasks s :
  (requests (launch tasks s)).*1 = (requests s).*1 ++ (task_url <$> tasks) ∧
  length (calls (launch tasks s)) = (length (calls s) + length tasks)%nat.
Proof.
  revert s. induction tasks as [|t tasks IH]; intros s; simpl.
  - by rewrite app_nil_r, Nat.add_0_r.
  - destruct (IH (fetchJSON (task_url t) (task_timeout t) s)) as [-> ->]. simpl.
    rewrite fmap_app, length_app, <- app_assoc. simpl. split; [done|lia].
Qed.

(** A handler calls [fetch] once per task, in order; the tasks of the
    report are fixed: their resources are pairwise distinct and their
    timeouts are 30000 and 15000 ms. *)
Lemma launch_fetches_every_task tasks now includeAsteroids :
  (requests (launch tasks (fresh_loop now))).*1 = task_url <$> tasks ∧
  length (calls (launch tasks (fresh_loop now))) = length tasks ∧
  NoDup (task_url <$> report_tasks includeAsteroids now) ∧
  Forall (λ t, task_timeout t = 30000 ∨ task_timeout t = 15000)
    (report_tasks includeAsteroids now).
Proof.
  destruct (launch_calls tasks (fresh_loop now)) as [Hreq Hlen].
  split_and!; [done|done| |].
  - unfold report_tasks, apod_url, feed_url, astros_url, iss_url.
    destruct includeAsteroids; simpl;
      repeat (apply NoDup_cons; split;
              [rewrite ?elem_of_cons, elem_of_nil; intros ?; destruct_or?; done|]);
      apply NoDup_nil_2.
  - unfold report_tasks. destruct includeAsteroids; simpl;
      repeat (constructor; [simpl; auto|]); constructor.
Qed.
End AggregationClaims.

Section AggregationExamples.
Import ExampleRuntime.

(** C2, the claim as stated fails: when the fetch of the picture of the
    day fails, the report handler throws the error at once, while its
    three other fetches are still in flight. *)
Lemma report_throws_before_all_settle :
  ∃ r, run_steps (report_entry true 0) [Sample.network_error 0]
         (start (report_entry true 0) 0) = Some r ∧
       outcome r = Some (Throw (Error "Fetch failed: fetch failed")) ∧
       phase_of <$> calls (state r) !! 1%nat = Some AwaitFetch ∧
       phase_of <$> calls (state r) !! 2%nat = Some AwaitFetch ∧
       phase_of <$> calls (state r) !! 3%nat = Some AwaitFetch.
Proof.
  destruct (run_steps (report_entry true 0) [Sample.network_error 0]
              (start (report_entry true 0) 0))
    as [r|] eqn:Hr; [|vm_compute in Hr; discriminate].
  exists r. split; [reflexivity|].
  vm_compute in Hr. injection Hr as <-. by split_and!.
Qed.

Lemma report_throws_the_first_failure_witness :
  ∃ r, run_steps (report_entry true 0)
         [Sample.network_error 2; FetchRejects 1 "TypeError" "astros is down";
          FetchRejects 0 "TypeError" "apod is down"]
         (start (report_entry true 0) 0) = Some r ∧
       outcome r = Some (Throw (Error "Fetch failed: astros is down")).
Proof.
  destruct (run_steps (report_entry true 0)
              [Sample.network_error 2; FetchRejects 1 "TypeError" "astros is down";
               FetchRejects 0 "TypeError" "apod is down"]
              (start (report_entry true 0) 0))
    as [r|] eqn:Hr; [|vm_compute in Hr; discriminate].
  exists r. split; [reflexivity|].
  destruct (report_throws_the_first_failure true 0 _ r Hr) as (_ & _ & Hfirst & _).
  apply Hfirst.
  vm_compute in Hr. injection Hr as <-. vm_compute. reflexivity.
Defined.
End AggregationExamples.

(** ** The report and the overview *)

Section ReportClaims.
Context `{Runtime}.

Lemma group_by_craft_Ok people m :
  Forall (λ q, craft q ∉ Object_prototype_keys) people →
  ∃ g, group_by_craft people m = Ok g.
Proof.
  revert m. induction people as [|q people IH]; intros m Hall; simpl; [by eexists|].
  apply Forall_cons in Hall as [Hq Hall].
  destruct (m !! craft q); [by apply IH|].
  rewrite bool_decide_eq_false_2 by done. by apply IH.
Qed.

Lemma report_elements includeAsteroids now :
  elements (report_entry includeAsteroids now) =
  [ {| promise := 0; caught := false |}; {| promise := 1; caught := false |};
    {| promise := 2; caught := true |} ] ++
  (if includeAsteroids then [ {| promise := 3; caught := false |} ] else []).
Proof. by destruct includeAsteroids. Qed.



(** C7. In the report, the failure of the fetch of the ISS position is
    not fatal: when the other fetches have succeeded, the handler
    returns the report, whose [issLocation] is ['unavailable'] and whose
    other fields are made from the fetched documents as in a run
    without failure: the picture of the day with its explanation cut,
    the number of people and their names by craft, the summary of the
    asteroids when they were requested, the day of the request.  The
    failure of the fetch of the picture of the day or of the astronauts
    makes the handler throw. *)
Theorem iss_failure_is_not_fatal includeAsteroids now es r :
  run_steps (report_entry includeAsteroids now) es
    (start (report_entry includeAsteroids now) now) = Some r →
  (∀ p a e,
     phase_of <$> calls (state r) !! 0%nat = Some (Fulfilled (JApod p)) →
     phase_of <$> calls (state r) !! 1%nat = Some (Fulfilled (JAstros a)) →
     phase_of <$> calls (state r) !! 2%nat = Some (Rejected e) →
     (includeAsteroids = true →
      ∃ f, phase_of <$> calls (state r) !! 3%nat = Some (Fulfilled (JFeed f))) →
     Forall (λ q, craft q ∉ Object_prototype_keys) (people a) →
     ∃ out, outcome r = Some (Ok out) ∧ issLocation (report out) = unavailable ∧
       astronomyPictureOfTheDay (report out) =
         {| picture_title := title p;
            picture_explanation := String_substring 0 500 (explanation p) +:+ "...";
            picture_url := url p;
            mediaType := media_type p |} ∧
       humansInSpace_total (report out) = number a ∧
       group_by_craft (people a) ∅ = Ok (byCraft (report out)) ∧
       report_date (report out) = Date.iso_day now ∧
       (includeAsteroids = false → nearEarthObjects (report out) = None) ∧
       (∀ f, includeAsteroids = true →
          phase_of <$> calls (state r) !! 3%nat = Some (Fulfilled (JFeed f)) →
          summarize (Some (JFeed f)) = Ok (nearEarthObjects (report out))) ∧
       (∃ t, report_fetchedAt out = Date.toISOString t) ∧
       report_dataSources out = ["NASA APOD"; "NASA NEO"; "Open-Notify"]) ∧
  (∀ e,
     phase_of <$> calls (state r) !! 0%nat = Some (Rejected e) ∨
     phase_of <$> calls (state r) !! 1%nat = Some (Rejected e) →
     ∃ e', outcome r = Some (Throw e')).
Proof.
  intros Hrun.
  pose proof (run_ok_steps _ es _ r (run_ok_start _ now) Hrun) as Hok.
  pose proof (report_elements includeAsteroids now) as Hels.
  split.
  - intros p a e H0 H1 H2 H3 Hcrafts.
    assert (∃ rest,
              (includeAsteroids = false ∧ rest = [] ∨
               ∃ f, includeAsteroids = true ∧ rest = [JFeed f] ∧
                    phase_of <$> calls (state r) !! 3%nat = Some (Fulfilled (JFeed f))))
      as (rest & Hrest).
    { destruct includeAsteroids; [|by exists []; left].
      destruct H3 as [f Hf]; [done|]. exists [JFeed f]. right. by exists f. }
    assert (Promise_all (elements (report_entry includeAsteroids now)) (state r) =
            Resolved (JApod p :: JAstros a :: JNull :: rest)) as Hall.
    { apply Promise_all_Resolved. split.
      - apply head_None, omap_none. intros k _.
        destruct (rejection_of _ (state r) k) as [err|] eqn:Hrej; [|done].
        apply rejection_of_Some in Hrej as [(el & Hel & <- & Hc) Hph].
        rewrite Hels in Hel.
        destruct Hrest as [[-> ->]|(f & -> & -> & Hf)];
          repeat (apply elem_of_cons in Hel as [->|Hel]; [simpl in *; congruence|]);
          by apply elem_of_nil in Hel.
      - rewrite Hels.
        destruct Hrest as [[-> ->]|(f & -> & -> & Hf)]; cbn;
          unfold resolved_value, element_state; simpl;
          rewrite H0, H1, H2, ?Hf; reflexivity. }
    destruct (run_ok_Resolved _ r _ Hok Hall) as [t ->].
    destruct (group_by_craft_Ok (people a) ∅ Hcrafts) as [g Hg].
    simpl. rewrite Hg. simpl.
    destruct Hrest as [[Hb ->]|(f & Hb & -> & Hf)]; simpl;
      (eexists; split; [reflexivity|]); simpl;
      (split_and!; [done|done|done|done|done| | |by exists t|done]).
    + done.
    + intros f. congruence.
    + intros. congruence.
    + intros f' _ Hf'. rewrite Hf in Hf'. by injection Hf' as <-.
  - intros e Hfailed.
    assert (∃ el, el ∈ elements (report_entry includeAsteroids now) ∧ caught el = false ∧
              phase_of <$> calls (state r) !! promise el = Some (Rejected e))
      as (el & Hel & Hc & Hph).
    { rewrite Hels. destruct Hfailed as [H0|H1].
      - exists {| promise := 0; caught := false |}. split_and!; [left|done|done].
      - exists {| promise := 1; caught := false |}.
        split_and!; [right; left|done|done]. }
    destruct (first_rejection_complete _ _ el e (proj1 Hok) Hel Hc Hph) as [e' He'].
    exists e'. apply (run_ok_Failed _ r e' Hok). by apply Promise_all_Failed.
Qed.


(** C8, amended. Given the same values from the fetcher, the output of
    the overview and of the asteroids handler is the same in every
    field but [fetchedAt], which is the reading of the clock when the
    handler resumes; and the values [Promise.all] hands over are those
    of the invocations, whatever the order in which they settled. *)
Theorem output_depends_on_clock_through_fetchedAt
    (vs : list json) (range : string * string) (t1 t2 : Z) :
  overview_continuation vs t2 =
    map_result (overview_stamped (Date.toISOString t2)) (overview_continuation vs t1) ∧
  asteroids_continuation range vs t2 =
    map_result (asteroids_stamped (Date.toISOString t2))
      (asteroids_continuation range vs t1) ∧
  (∀ els s vs', Promise_all els s = Resolved vs' →
     mapM (resolved_value s) els = Some vs').
Proof.
  split_and!.
  - destruct vs as [|[| | | |] [|[| | | |] [|? ?]]]; reflexivity.
  - destruct vs as [|[| | | |] [|? ?]]; reflexivity.
  - by intros els s vs' [_ ?]%Promise_all_Resolved.
Qed.
End ReportClaims.

Section ReportExamples.
Import ExampleRuntime.

Lemma iss_failure_is_not_fatal_witness :
  ∃ r out,
    run_steps (report_entry false 0) Sample.report_answers_but_iss
      (start (report_entry false 0) 0) = Some r ∧
    outcome r = Some (Ok out) ∧ issLocation (report out) = unavailable ∧
    picture_title (astronomyPictureOfTheDay (report out)) = "Orion" ∧
    picture_explanation (astronomyPictureOfTheDay (report out)) = "A nebula...." ∧
    humansInSpace_total (report out) = 2 ∧
    nearEarthObjects (report out) = None.
Proof.
  destruct (run_steps (report_entry false 0) Sample.report_answers_but_iss
              (start (report_entry false 0) 0)) as [r|] eqn:Hr;
    [|vm_compute in Hr; discriminate].
  destruct (iss_failure_is_not_fatal false 0 _ r Hr) as [Hreport _].
  assert (Hr' := Hr). vm_compute in Hr'. injection Hr' as <-.
  destruct (Hreport Sample.picture_of_the_day Sample.crew
              (Error "Fetch failed: fetch failed"))
    as (out & Hout & Hloc & Hpic & Hnum & _ & _ & Hneo & _);
    [vm_compute; reflexivity|vm_compute; reflexivity|vm_compute; reflexivity
    |intros [=]| |].
  - repeat constructor; refine (bool_decide_unpack _ _); vm_compute; exact I.
  - eexists _, out. split; [reflexivity|].
    split; [exact Hout|]. split; [exact Hloc|].
    rewrite Hpic, Hnum, Hneo by reflexivity. by split_and!.
Defined.



(** C8, the claim as stated fails: two runs of the overview against the
    same answers, a day apart, return different outputs. *)
Lemma overview_differs_between_runs :
  ∃ o1 o2,
    outcome <$> run_steps overview Sample.overview_answers (start overview 0)
      = Some (Some (Ok o1)) ∧
    outcome <$> run_steps overview Sample.overview_answers (start overview 86400000)
      = Some (Some (Ok o2)) ∧
    overview_fetchedAt o1 = "1970-01-01T00:00:00.000Z" ∧
    overview_fetchedAt o2 = "1970-01-02T00:00:00.000Z" ∧
    o1 ≠ o2.
Proof.
  eexists _, _. split; [vm_compute; reflexivity|].
  split; [vm_compute; reflexivity|].
  split; [reflexivity|]. split; [reflexivity|]. intros [=].
Qed.
End ReportExamples.

(** * Further properties *)

(** ** [fetchJSON] *)

Section FetchFacts.
Context `{Runtime}.

Lemma consistent_steps es s s' : consistent s → steps es s = Some s' → consistent s'.
Proof.
  revert s. induction es as [|e es IH]; intros s Hs; simpl.
  - by intros [= <-].
  - destruct (step e s) as [s1|] eqn:Hstep; [|done]. simpl.
    apply IH. by eapply consistent_step.
Qed.

(** The timer of an invocation is pending only while the invocation
    awaits its response. *)
Lemma timer_cleared s i c :
  consistent s → calls s !! i = Some c → phase_of c ≠ AwaitFetch →
  timers s !! timeoutId c = None.
Proof.
  intros Hs Hi Hph.
  destruct (timers s !! timeoutId c) as [[due ctl]|] eqn:Htimer; [|done].
  destruct (timers_owned s Hs _ _ _ Htimer) as (j & cj & Hj & Htid & _ & Hphj).
  assert (j = i) as -> by (by eapply (timers_distinct s Hs)).
  congruence.
Qed.

(** X1. The body read: [clearTimeout] has run when the response arrived, so
    nothing but the body itself settles an invocation that awaits its
    body: whatever else happens and however much time passes, it stays
    pending, with no timer and a signal that is not aborted. *)
Theorem body_read_has_no_timeout es s s' i c :
  reachable s → calls s !! i = Some c → phase_of c = AwaitBody →
  steps es s = Some s' → Forall (λ e, ¬ delivers_body i e) es →
  calls s' !! i = Some c ∧
  timers s' !! timeoutId c = None ∧
  controllers s' !! controller c = Some false.
Proof.
  intros Hs%reachable_consistent Hi Hph Hsteps Hquiet.
  assert (consistent s' ∧ calls s' !! i = Some c) as [Hs' Hi'].
  { revert s Hs Hi Hsteps.
    induction es as [|e es IH]; intros s Hs Hi; simpl.
    - by intros [= <-].
    - destruct (step e s) as [s1|] eqn:Hstep; [|done]. simpl. intros Hsteps.
      apply Forall_cons in Hquiet as [Hnot Hrest].
      apply (IH Hrest s1); [by eapply consistent_step| |done].
      destruct (decide (concerns s e i)) as [Hcon|Hcon].
      + destruct (step_own e s s1 i c Hs Hstep Hi Hcon) as (ph & ab & Heff & _).
        unfold effect in Heff. rewrite Hph in Heff.
        destruct e; simpl in Hcon, Hnot; try done; by subst.
      + by destruct (step_frame e s s1 i c Hs Hstep Hi Hcon). }
  split_and!; [done| |].
  - apply (timer_cleared s' i); [done..|]. by rewrite Hph.
  - apply (signals_live s' Hs' i); [done|]. by rewrite Hph.
Qed.

(** X3. The pending timers are those of the invocations that await their
    response, each due [timer_delay timeout] after the invocation and
    bound to the controller of the invocation: no timer outlives the
    [await] it guards, on any path through [fetchJSON]. *)
Theorem timers_are_cleared s :
  reachable s →
  (∀ id due ctl,
     timers s !! id = Some (due, ctl) ↔
     ∃ i c, calls s !! i = Some c ∧ phase_of c = AwaitFetch ∧
            id = timeoutId c ∧ ctl = controller c ∧
            due = started c + timer_delay (timeout c)) ∧
  (∀ i c, calls s !! i = Some c → phase_of c ≠ AwaitFetch →
     timers s !! timeoutId c = None).
Proof.
  intros Hs%reachable_consistent. split.
  - intros id due ctl. split.
    + intros Htimer.
      destruct (timers_owned s Hs _ _ _ Htimer) as (i & c & Hi & <- & <- & Hph).
      exists i, c. split_and!; try done.
      pose proof (timers_armed s Hs i c Hi Hph) as Harmed. congruence.
    + intros (i & c & Hi & Hph & -> & -> & ->). by apply (timers_armed s Hs i).
  - intros i c. by apply timer_cleared.
Qed.

(** X2. How an invocation of [fetchJSON] comes to be rejected.  While
    it waits for its response it is rejected by the [catch] block, with
    an [Error] whose message is ["Fetch failed: "] followed by the
    message of what was caught: the failure of the network, the abort
    when its own timer fires, or ["API error: "] and the status of a
    response that is not ok.  While it reads the body it is rejected
    only by the failure of [response.json()], and with that error as it
    is: the [catch] block does not see it.  Nothing else rejects an
    invocation. *)
Theorem fetchJSON_rejections ev s s' i c c' err :
  reachable s → step ev s = Some s' →
  calls s !! i = Some c → is_settled (phase_of c) = false →
  calls s' !! i = Some c' → phase_of c' = Rejected err →
  match ev with
  | FetchRejects k _ message =>
      k = i ∧ phase_of c = AwaitFetch ∧ err = Error ("Fetch failed: " +:+ message)
  | TimerFires id =>
      id = timeoutId c ∧ phase_of c = AwaitFetch ∧
      err = Error ("Fetch failed: " +:+ abort_message)
  | ResponseArrives k status =>
      k = i ∧ phase_of c = AwaitFetch ∧ ok status = false ∧
      err = Error ("Fetch failed: " +:+ "API error: " +:+ pretty status)
  | BodyFails k name message =>
      k = i ∧ phase_of c = AwaitBody ∧ err = HostError name message
  | Elapse _ | BodyParsed _ _ => False
  end.
Proof.
  intros Hs%reachable_consistent Hstep Hi Hpending Hi' Hph'.
  destruct (decide (concerns s ev i)) as [Hcon|Hcon].
  - destruct (step_own ev s s' i c Hs Hstep Hi Hcon) as (ph & ab & Heff & Hi2 & _).
    rewrite Hi' in Hi2. injection Hi2 as ->. simpl in Hph'. subst ph.
    unfold effect in Heff.
    destruct ev as [t|id|k name msg|k status|k v|k name msg]; simpl in Hcon;
      destruct (phase_of c); try done.
    + rewrite Hi in Hcon. simpl in Hcon. injection Hcon as <-.
      unfold timed_out in Heff. injection Heff as <- _. done.
    + injection Heff as <- _. done.
    + destruct (ok status); [done|]. injection Heff as <- _. done.
    + injection Heff as <- _. done.
  - destruct (step_frame ev s s' i c Hs Hstep Hi Hcon) as (Hi2 & _).
    rewrite Hi' in Hi2. injection Hi2 as ->. by rewrite Hph' in Hpending.
Qed.

(** X4. Every invocation of [fetchJSON] calls [fetch] once, with its own
    signal, and no turn of the loop calls it again: there is no retry. *)
Theorem fetch_is_called_once_per_invocation s :
  reachable s →
  requests s = (λ c, (resource c, controller c)) <$> calls s ∧
  (∀ es s', steps es s = Some s' → requests s' = requests s).
Proof.
  assert (∀ e s s', consistent s → step e s = Some s' →
            requests s' = requests s ∧
            (λ c, (resource c, controller c)) <$> calls s' =
            (λ c, (resource c, controller c)) <$> calls s) as Hstep1.
  { intros e s0 s' Hs Hstep.
    destruct (step_normal e s0 s' Hs Hstep)
      as [(t & -> & _ & ->)|(k & ck & ph & ab & Hk & _ & _ & ->)]; [done|].
    split; [done|]. simpl. apply list_eq. intros j.
    rewrite !list_lookup_fmap.
    destruct (decide (j = k)) as [->|Hne].
    - by rewrite list_lookup_alter_eq, Hk.
    - by rewrite list_lookup_alter_ne. }
  intros Hreach. split.
  - induction Hreach as [now|url timeout s Hreach IH|ev s s' Hreach IH Hstep].
    + done.
    + simpl. by rewrite fmap_app, IH.
    + destruct (Hstep1 ev s s' (reachable_consistent s Hreach) Hstep) as [-> ->].
      exact IH.
  - pose proof (reachable_consistent s Hreach) as Hs. clear Hreach.
    intros es. revert s Hs. induction es as [|e es IH]; intros s Hs s'; simpl.
    + by intros [= <-].
    + destruct (step e s) as [s1|] eqn:Hstep; [|done]. simpl. intros Hsteps.
      rewrite (IH s1 (consistent_step e s s1 Hs Hstep) s' Hsteps).
      by destruct (Hstep1 e s s1 Hs Hstep).
Qed.

(** X5. A promise settles once: no invocation is logged twice as settled,
    and a settled invocation keeps its value whatever happens next. *)
Theorem invocations_settle_once s :
  reachable s →
  NoDup (settled s) ∧
  (∀ es s' i c, steps es s = Some s' → calls s !! i = Some c →
     is_settled (phase_of c) = true → calls s' !! i = Some c).
Proof.
  intros Hreach. split.
  - induction Hreach as [now|url timeout s Hreach IH|ev s s' Hreach IH Hstep].
    + constructor.
    + done.
    + pose proof (reachable_consistent s Hreach) as Hs.
      destruct (step_normal ev s s' Hs Hstep)
        as [(t & -> & _ & ->)|(k & ck & ph & ab & Hk & _ & Heff & ->)]; [done|].
      simpl. destruct (is_settled ph); [|done].
      apply NoDup_app. split_and!; [done| |apply NoDup_singleton].
      intros j Hj ->%list_elem_of_singleton.
      apply (settled_log s Hs) in Hj as (c' & Hc' & Hset).
      apply effect_facts in Heff as [Hpending _]. congruence.
  - pose proof (reachable_consistent s Hreach) as Hs. clear Hreach.
    intros es. revert s Hs. induction es as [|e es IH]; intros s Hs s' i c; simpl.
    + by intros [= <-].
    + destruct (step e s) as [s1|] eqn:Hstep; [|done]. simpl. intros Hsteps Hi Hset.
      apply (IH s1); [by eapply consistent_step|done| |done].
      by eapply step_settled.
Qed.
End FetchFacts.

(** ** Handlers and their fetches *)

Section HandlerFacts.
Context `{Runtime}.

(** X6. Once [Promise.all] has settled, nothing that happens to the
    invocations changes its state: the handler throws the first failure,
    and a later failure of another task is lost. *)
Theorem first_failure_wins els es s s' :
  reachable s → Promise_all els s ≠ Pending → steps es s = Some s' →
  Promise_all els s' = Promise_all els s.
Proof.
  intros Hs%reachable_consistent. revert s Hs.
  induction es as [|e es IH]; intros s Hs Hsettled; simpl.
  - by intros [= <-].
  - destruct (step e s) as [s1|] eqn:Hstep; [|done]. simpl. intros Hsteps.
    pose proof (Promise_all_stable e s s1 els Hs Hstep Hsettled) as Hsame.
    rewrite <- Hsame. apply IH; [by eapply consistent_step|congruence|done].
Qed.

Lemma launch_spec tasks s :
  ∃ cs, calls (launch tasks s) = calls s ++ cs ∧
        clock (launch tasks s) = clock s ∧
        Forall2 (λ t c, timeout c = task_timeout t ∧ started c = clock s ∧
                        phase_of c = AwaitFetch) tasks cs.
Proof.
  revert s. induction tasks as [|t tasks IH]; intros s; simpl.
  - exists []. by rewrite app_nil_r.
  - destruct (IH (fetchJSON (task_url t) (task_timeout t) s)) as (cs & -> & -> & Hcs).
    simpl. eexists (_ :: cs). rewrite <- app_assoc. split_and!; [done|done|].
    by constructor.
Qed.

Lemma steps_calls_length es s s' :
  consistent s → steps es s = Some s' → length (calls s') = length (calls s).
Proof.
  revert s. induction es as [|e es IH]; intros s Hs; simpl.
  - by intros [= <-].
  - destruct (step e s) as [s1|] eqn:Hstep; [|done]. simpl. intros Hsteps.
    rewrite (IH s1 (consistent_step e s s1 Hs Hstep) Hsteps).
    destruct (step_normal e s s1 Hs Hstep)
      as [(t & -> & _ & ->)|(k & ck & ph & ab & _ & _ & _ & ->)]; [done|].
    simpl. by rewrite length_alter.
Qed.

(** X7. What a handler waits for.  As long as the network has not
    answered the fetch of a task without [catch] whose timeout is
    between 1 and 2^31-1 ms, the handler has thrown, or it waits and the
    timer of that task is pending, due that time after the invocation
    of the handler; when the callback of the timer then runs, the
    handler throws the error of the abort in the same turn.  The handler
    has not returned.  If no fetch at all was answered, the error of the
    abort is all the handler can have thrown. *)
Theorem handler_waits_for_its_timers {O} (h : handler O) now es r k t :
  run_steps h es (start h now) = Some r →
  tasks h !! k = Some t → with_catch t = false →
  1 ≤ task_timeout t ≤ 2147483647 →
  Forall (λ e, ¬ answers k e) es →
  ((∃ e, outcome r = Some (Throw e)) ∨
   (outcome r = None ∧
    ∃ c, calls (state r) !! k = Some c ∧ phase_of c = AwaitFetch ∧
         timers (state r) !! timeoutId c =
           Some (now + task_timeout t, controller c) ∧
         ∀ r', run_step h (TimerFires (timeoutId c)) r = Some r' →
               outcome r' =
                 Some (Throw (Error ("Fetch failed: " +:+ abort_message))))) ∧
  (Forall (λ e, ∀ i, ¬ answers i e) es →
   ∀ e, outcome r = Some (Throw e) →
        e = Error ("Fetch failed: " +:+ abort_message)).
Proof.
  intros Hrun Ht Hcatch Hrange Hquiet.
  pose proof (run_ok_steps h es _ r (run_ok_start h now) Hrun) as Hok.
  pose proof (run_steps_state h es _ r Hrun) as Hsteps. simpl in Hsteps.
  set (s0 := launch (tasks h) (fresh_loop now)) in *.
  assert (consistent s0) as Hs0
    by apply reachable_consistent, reachable_launch, reachable_fresh.
  destruct (launch_spec (tasks h) (fresh_loop now)) as (cs & Hcalls & Hclock & Hcs).
  fold s0 in Hcalls, Hclock. simpl in Hcalls, Hclock, Hcs.
  assert (∀ j c, calls s0 !! j = Some c → phase_of c = AwaitFetch) as Hfresh.
  { intros j c. rewrite Hcalls. intros Hj.
    destruct (Forall2_lookup_r _ _ _ _ _ Hcs Hj) as (t' & _ & _ & _ & Hph). done. }
  destruct (Forall2_lookup_l _ _ _ _ _ Hcs Ht) as (c & Hk & Hto & Hst & Hph).
  rewrite <- Hcalls in Hk.
  pose proof (steps_unanswered es s0 (state r) k c Hs0 Hk Hph Hsteps Hquiet) as Hk'.
  assert (elements h !! k = Some {| promise := k; caught := false |}) as Hel
    by (by rewrite elements_lookup, Ht; simpl; rewrite Hcatch).
  assert (∀ vs, Promise_all (elements h) (state r) ≠ Resolved vs) as Hunresolved.
  { intros vs [_ Hvs%mapM_Some]%Promise_all_Resolved.
    destruct (Forall2_lookup_l _ _ _ _ _ Hvs Hel) as (v & _ & Hv).
    apply resolved_value_Some in Hv as [Hful|(? & _)]; [|done].
    simpl in Hful. destruct Hk' as [Hk'|(Hk' & _)]; rewrite Hk' in Hful; simpl in Hful;
      [congruence|done]. }
  split.
  - destruct Hk' as [Hk'|(Hk' & _)].
    + destruct (outcome r) as [o|] eqn:Ho.
      * left. destruct Hok as [_ Hout]. rewrite Ho in Hout.
        destruct Hout as [(e & _ & ->)|(vs & ? & Hall & _)]; [by exists e|].
        by destruct (Hunresolved vs).
      * right. split; [done|]. exists c. split_and!; [done|done| |].
        -- rewrite (timers_armed _ (proj1 Hok) k c Hk' Hph).
           rewrite timer_delay_in_range by lia. by rewrite Hto, Hst.
        -- intros r' Hfire.
           assert (calls (state r') !! k = Some (with_phase timed_out c)) as Hfired.
           { unfold run_step in Hfire.
             destruct (step (TimerFires (timeoutId c)) (state r)) as [s'|] eqn:Hstep;
               [|done].
             simpl in Hfire. injection Hfire as <-. simpl.
             destruct (step_own _ (state r) s' k c (proj1 Hok) Hstep Hk')
               as (ph & ab & Heff & Hk2 & _); [by simpl; rewrite Hk'|].
             unfold effect in Heff. rewrite Hph in Heff. by injection Heff as <- _. }
           by apply (run_fails_at_once h _ r r' k t _ _ Hok Ho Hfire Ht Hcatch Hfired).
    + left.
      apply (run_required_failure h r k t (with_phase timed_out c)
               (Error ("Fetch failed: " +:+ abort_message)) Hok Ht Hcatch Hk' eq_refl).
  - intros Hnone e He.
    destruct (run_throws h r e Hok He)
      as [(j & tj & cj' & _ & _ & Hj' & Hphj)|(vs & ? & Hall & _)];
      [|by destruct (Hunresolved vs)].
    assert (is_Some (calls s0 !! j)) as [cj Hj].
    { apply lookup_lt_is_Some.
      rewrite <- (steps_calls_length es s0 (state r) Hs0 Hsteps).
      by eapply lookup_lt_Some. }
    destruct (steps_unanswered es s0 (state r) j cj Hs0 Hj (Hfresh j cj Hj) Hsteps)
      as [Hj2|(Hj2 & _)].
    { eapply Forall_impl; [exact Hnone|]. intros ev Hev. apply Hev. }
    + rewrite Hj2 in Hj'. injection Hj' as <-. rewrite (Hfresh j cj Hj) in Hphj. done.
    + rewrite Hj2 in Hj'. injection Hj' as <-. simpl in Hphj.
      unfold timed_out in Hphj. congruence.
Qed.
End HandlerFacts.

(** ** Grouping by craft *)

Section CraftFacts.

Lemma crew_of_cons k p people :
  crew_of k (p :: people) =
  if decide (craft p = k) then person_name p :: crew_of k people else crew_of k people.
Proof. unfold crew_of. rewrite filter_cons. by destruct (decide (craft p = k)). Qed.

Lemma group_by_craft_lookup people m g k :
  group_by_craft people m = Ok g →
  g !! k =
    match m !! k with
    | Some names => Some (names ++ crew_of k people)
    | None => if decide (crew_of k people = []) then None else Some (crew_of k people)
    end.
Proof.
  revert m. induction people as [|p people IH]; intros m; simpl.
  - intros [= <-]. destruct (m !! k); [by rewrite app_nil_r|done].
  - rewrite crew_of_cons.
    destruct (m !! craft p) as [names|] eqn:Hp.
    + intros Hg%IH. rewrite Hg. destruct (decide (craft p = k)) as [<-|Hne].
      * by rewrite lookup_insert_eq, Hp, <- app_assoc.
      * by rewrite lookup_insert_ne.
    + destruct (bool_decide (craft p ∈ Object_prototype_keys)); [done|].
      intros Hg%IH. rewrite Hg. destruct (decide (craft p = k)) as [<-|Hne].
      * rewrite lookup_insert_eq, Hp. by destruct (decide _).
      * by rewrite lookup_insert_ne.
Qed.

(** X8. The loop that groups the people by craft, when it completes: the
    entry of a craft holds the names of the people aboard it, all of them
    and in the order of the upstream list, and there is an entry for the
    crafts that have somebody aboard only. *)
Theorem byCraft_holds_each_crew people g :
  group_by_craft people ∅ = Ok g →
  (∀ k, g !! k = if decide (crew_of k people = []) then None
                 else Some (crew_of k people)) ∧
  (∀ p, p ∈ people →
     ∃ names, g !! craft p = Some names ∧ person_name p ∈ names) ∧
  (∀ k names, g !! k = Some names → names ≠ []).
Proof.
  intros Hg.
  assert (∀ k, g !! k = if decide (crew_of k people = []) then None
                        else Some (crew_of k people)) as Hlook.
  { intros k. by rewrite (group_by_craft_lookup people ∅ g k Hg), lookup_empty. }
  split_and!; [done| |].
  - intros p Hp.
    assert (person_name p ∈ crew_of (craft p) people) as Hin.
    { unfold crew_of. apply list_elem_of_fmap. exists p. split; [done|].
      by apply list_elem_of_filter. }
    rewrite Hlook. destruct (decide _) as [Hnil|_].
    + rewrite Hnil in Hin. by apply elem_of_nil in Hin.
    + by eexists.
  - intros k names. rewrite Hlook. destruct (decide _); [done|]. by intros [= <-].
Qed.

Lemma group_by_craft_throws people m :
  (∀ k, k ∈ Object_prototype_keys → m !! k = None) →
  (∃ p, p ∈ people ∧ craft p ∈ Object_prototype_keys) ∧
    group_by_craft people m = Throw TypeError ∨
  (∀ p, p ∈ people → craft p ∉ Object_prototype_keys) ∧
    ∃ g, group_by_craft people m = Ok g.
Proof.
  revert m. induction people as [|p people IH]; intros m Hm; simpl.
  - right. split; [by intros p ?%elem_of_nil|by eexists].
  - assert (∀ names, craft p ∉ Object_prototype_keys →
              ∀ k, k ∈ Object_prototype_keys → <[craft p := names]> m !! k = None)
      as Hm'.
    { intros names Hp k Hk. rewrite lookup_insert_ne; [by apply Hm|].
      intros Heq. apply Hp. by rewrite Heq. }
    assert (craft p ∉ Object_prototype_keys →
            ∀ names,
              (∃ q, q ∈ p :: people ∧ craft q ∈ Object_prototype_keys) ∧
                group_by_craft people (<[craft p := names]> m) = Throw TypeError ∨
              (∀ q, q ∈ p :: people → craft q ∉ Object_prototype_keys) ∧
                ∃ g, group_by_craft people (<[craft p := names]> m) = Ok g) as Hnext.
    { intros Hp names.
      destruct (IH _ (Hm' names Hp)) as [[(q & Hq & Hproto) Hthrow]|[Hnone Hok]].
      - left. split; [|done]. exists q. split; [by right|done].
      - right. split; [|done]. by intros q [->|Hq]%elem_of_cons; [|apply Hnone]. }
    destruct (m !! craft p) as [names|] eqn:Hp.
    + apply Hnext. intros Hproto. apply Hm in Hproto. congruence.
    + destruct (bool_decide (craft p ∈ Object_prototype_keys)) eqn:Hb.
      * apply bool_decide_eq_true in Hb. left. split; [|done].
        exists p. split; [left|done].
      * apply bool_decide_eq_false in Hb. by apply Hnext.
Qed.
End CraftFacts.

(** ** The crafts of [overview] and [astronauts] *)

Section CraftLists.

Lemma dedupe_from (xs acc : list string) :
  NoDup acc →
  let r := foldl (λ seen x, if bool_decide (x ∈ seen) then seen else seen ++ [x]) acc xs in
  NoDup r ∧ (∀ x, x ∈ r ↔ x ∈ acc ∨ x ∈ xs) ∧ ∃ new, r = acc ++ new.
Proof.
  revert acc. induction xs as [|x xs IH]; intros acc Hacc; simpl.
  - split_and!; [done| |exists []; by rewrite app_nil_r].
    intros y. rewrite elem_of_nil. tauto.
  - destruct (bool_decide (x ∈ acc)) eqn:Hx.
    + apply bool_decide_eq_true in Hx.
      destruct (IH acc Hacc) as (Hnodup & Hin & Hnew). split_and!; [done| |done].
      intros y. rewrite Hin, elem_of_cons. split; [tauto|].
      intros [?|[->|?]]; tauto.
    + apply bool_decide_eq_false in Hx.
      destruct (IH (acc ++ [x])) as (Hnodup & Hin & new & Hnew).
      { apply NoDup_app. split_and!; [done| |apply NoDup_singleton].
        by intros y Hy ->%list_elem_of_singleton. }
      split_and!; [done| |].
      * intros y. rewrite Hin, elem_of_app, list_elem_of_singleton, elem_of_cons. tauto.
      * exists (x :: new). by rewrite Hnew, <- app_assoc.
Qed.

Lemma dedupe_NoDup xs : NoDup (dedupe xs).
Proof. apply (dedupe_from xs []). constructor. Qed.

Lemma dedupe_elem_of xs x : x ∈ dedupe xs ↔ x ∈ xs.
Proof.
  destruct (dedupe_from xs [] (NoDup_nil_2 : NoDup [])) as (_ & Hin & _).
  unfold dedupe. rewrite Hin, elem_of_nil. tauto.
Qed.

(** A value that has not occurred yet is appended to the values seen so
    far. *)
Lemma dedupe_first_occurrence before x after :
  x ∉ before → ∃ rest, dedupe (before ++ x :: after) = dedupe before ++ x :: rest.
Proof.
  intros Hx. unfold dedupe at 1. rewrite foldl_app. fold (dedupe before). simpl.
  rewrite bool_decide_eq_false_2 by (by rewrite dedupe_elem_of).
  destruct (dedupe_from after (dedupe before ++ [x])) as (_ & _ & new & Hnew).
  { apply NoDup_app. split_and!; [apply dedupe_NoDup| |apply NoDup_singleton].
    intros y Hy ->%list_elem_of_singleton. by apply (proj1 (dedupe_elem_of _ _)) in Hy. }
  exists new. simpl in Hnew. by rewrite Hnew, <- app_assoc.
Qed.

Lemma indexed_keys ks :
  (omap (λ k, (λ n, (n, k)) <$> Astronauts.array_index k) ks).*2 =
  filter (λ k, is_Some (Astronauts.array_index k)) ks.
Proof.
  induction ks as [|k ks IH]; [done|].
  rewrite filter_cons, <- IH. clear IH.
  destruct (Astronauts.array_index k) as [n|] eqn:E.
  - rewrite decide_True by (by eexists). cbn. by rewrite E.
  - rewrite decide_False by (by intros [? ?]). cbn. by rewrite E.
Qed.

Lemma Object_keys_Permutation inserted :
  Astronauts.Object_keys inserted ≡ₚ dedupe inserted.
Proof.
  unfold Astronauts.Object_keys.
  rewrite merge_sort_Permutation, indexed_keys.
  apply filter_app_complement.
Qed.

Lemma Object_keys_no_index inserted :
  Forall (λ k, Astronauts.array_index k = None) inserted →
  Astronauts.Object_keys inserted = dedupe inserted.
Proof.
  intros Hnone.
  assert (Forall (λ k, Astronauts.array_index k = None) (dedupe inserted)) as Hks.
  { rewrite Forall_forall in *. intros k Hk. apply Hnone.
    by apply (proj1 (dedupe_elem_of _ _)). }
  unfold Astronauts.Object_keys. revert Hks. generalize (dedupe inserted) as ks.
  intros ks Hks.
  assert (omap (λ k, (λ n, (n, k)) <$> Astronauts.array_index k) ks = []) as ->.
  { apply omap_none. intros k Hk. rewrite Forall_forall in Hks.
    by rewrite (Hks k Hk). }
  simpl. induction Hks as [|k ks Hk Hks IH]; [done|].
  rewrite filter_cons, decide_True; [by rewrite IH|].
  rewrite Hk. by intros [? ?].
Qed.

(** X9. A craft named like a property of [Object.prototype] makes the
    [astronauts] handler throw a [TypeError], and nothing else does once
    the document has arrived; the [overview], which does not group,
    answers for every crew. *)
Theorem prototype_named_craft_throws (data : astros) (now : Z) :
  (Astronauts.astronauts_continuation [JAstros data] now = Throw TypeError ↔
     ∃ p, p ∈ people data ∧ craft p ∈ Object_prototype_keys) ∧
  ((∀ p, p ∈ people data → craft p ∉ Object_prototype_keys) ↔
     ∃ out, Astronauts.astronauts_continuation [JAstros data] now = Ok out) ∧
  (∀ apod, apod ≠ JNull →
     ∃ out, overview_continuation [JAstros data; apod] now = Ok out).
Proof.
  assert (∀ k, k ∈ Object_prototype_keys →
            (∅ : gmap string (list string)) !! k = None) as Hempty by done.
  split_and!.
  - simpl.
    destruct (group_by_craft_throws (people data) ∅ Hempty)
      as [[Hex ->]|[Hnone [g ->]]]; simpl; [done|].
    split; [done|]. intros (p & Hp & Hproto). by apply Hnone in Hproto.
  - simpl.
    destruct (group_by_craft_throws (people data) ∅ Hempty)
      as [[(p & Hp & Hproto) ->]|[Hnone [g ->]]]; simpl.
    + split; [|by intros [? ?]]. intros Hnone. by apply Hnone in Hproto.
    + split; [by eexists|done].
  - intros apod Hapod. destruct apod; simpl; try done; by eexists.
Qed.

(** X10. The [crafts] of the [overview] name each craft with somebody aboard
    once, in the order the crafts first appear in the upstream list;
    [humansInSpace] is the upstream [number], whatever the length of the
    list. *)
Theorem overview_lists_each_craft_once (data : astros) (apod : json) (now : Z)
    (out : overview_output) :
  overview_continuation [JAstros data; apod] now = Ok out →
  NoDup (crafts out) ∧
  (∀ k, k ∈ crafts out ↔ ∃ p, p ∈ people data ∧ craft p = k) ∧
  (∀ before p after,
     people data = before ++ p :: after →
     (∀ q, q ∈ before → craft q ≠ craft p) →
     ∃ rest, crafts out = dedupe (craft <$> before) ++ craft p :: rest) ∧
  humansInSpace out = number data.
Proof.
  intros Hout.
  assert (crafts out = dedupe (craft <$> people data) ∧
          humansInSpace out = number data) as [-> ->].
  { simpl in Hout. destruct apod; simpl in Hout; try done; by injection Hout as <-. }
  split_and!; [apply dedupe_NoDup| | |done].
  - intros k. rewrite dedupe_elem_of, list_elem_of_fmap. split.
    + intros (p & -> & Hp). by exists p.
    + intros (p & Hp & <-). by exists p.
  - intros before p after -> Hfirst. rewrite fmap_app, fmap_cons.
    apply dedupe_first_occurrence.
    intros (q & Heq & Hq)%list_elem_of_fmap. by apply (Hfirst q).
Qed.

(** X11. The [crafts] of the [astronauts] handler are the keys of [byCraft],
    each once: the crafts with somebody aboard.  They come in the order
    the crafts first appear in the upstream list, the same as in the
    [overview], unless a craft is named by an array index (these come
    first, in ascending order).  [totalInSpace] is the upstream
    [number]. *)
Theorem astronauts_lists_the_keys_of_byCraft (data : astros) (now : Z)
    (out : Astronauts.output) :
  Astronauts.astronauts_continuation [JAstros data] now = Ok out →
  NoDup (Astronauts.crafts out) ∧
  (∀ k, k ∈ Astronauts.crafts out ↔ is_Some (Astronauts.byCraft out !! k)) ∧
  Astronauts.crafts out ≡ₚ dedupe (craft <$> people data) ∧
  (Forall (λ p, Astronauts.array_index (craft p) = None) (people data) →
     Astronauts.crafts out = dedupe (craft <$> people data)) ∧
  Astronauts.totalInSpace out = number data.
Proof.
  simpl. destruct (group_by_craft (people data) ∅) as [g|] eqn:Hg; simpl; [|done].
  intros [= <-]. simpl.
  pose proof (Object_keys_Permutation (craft <$> people data)) as Hperm.
  split_and!; [| |done| |done].
  - rewrite Hperm. apply dedupe_NoDup.
  - intros k. rewrite Hperm, dedupe_elem_of.
    rewrite (group_by_craft_lookup (people data) ∅ g k Hg), lookup_empty.
    rewrite list_elem_of_fmap. unfold crew_of. split.
    + intros (p & -> & Hp). destruct (decide _) as [Hnil|_]; [|by eexists].
      apply fmap_nil_inv in Hnil.
      assert (p ∈ filter (λ q, craft q = craft p) (people data)) as Hin
        by (by apply list_elem_of_filter).
      rewrite Hnil in Hin. by apply elem_of_nil in Hin.
    + destruct (decide _) as [|Hne]; [by intros [? ?]|]. intros _.
      destruct (filter (λ p, craft p = k) (people data)) as [|p ps] eqn:Hf; [done|].
      assert (p ∈ filter (λ p, craft p = k) (people data)) as Hin
        by (rewrite Hf; left).
      apply list_elem_of_filter in Hin as [Hk Hin]. by exists p.
  - intros Hnone. apply Object_keys_no_index.
    by apply Forall_fmap.
Qed.
End CraftLists.

(** ** Asteroids in the report and in the [asteroids] handler *)

Section HazardFacts.
Import Asteroids.

Lemma length_filter_fmap {A B} (f : A → B) (P : B → Prop) `{!∀ y, Decision (P y)}
    (l : list A) :
  length (filter P (f <$> l)) = length (filter (λ x, P (f x)) l).
Proof.
  induction l as [|x l IH]; [done|].
  rewrite fmap_cons, !filter_cons. destruct (decide (P (f x))); simpl; by rewrite IH.
Qed.

Lemma hazardous_count (parseFloat : string → num) (objects : list (string * list neo)) :
  length (filter (λ a, isPotentiallyHazardous a = true)
            (flat_map (λ entry, flatten_neo parseFloat <$> entry.2) objects)) =
  length (flat_map (λ entry,
            hazardous_of <$>
              filter (λ a, is_potentially_hazardous_asteroid a = true) entry.2) objects).
Proof.
  induction objects as [|entry objects IH]; [done|].
  simpl. rewrite filter_app, !length_app, IH, length_fmap.
  by rewrite length_filter_fmap.
Qed.

(** X12. For the same feed the report and the [asteroids] handler agree:
    [hazardousObjects] is [hazardousCount], counted over all the objects
    of the feed, and [totalTracked] is [totalCount], the upstream
    [element_count].  The report lists at most five hazardous objects,
    the first of the feed, where the [asteroids] handler lists the
    nearest. *)
Theorem report_and_asteroids_agree (parseFloat : string → num) (data : feed)
    (start end_ now_iso : string) :
  ∃ summary,
    summarize (Some (JFeed data)) = Ok (Some summary) ∧
    hazardousObjects summary =
      hazardousCount (respond parseFloat data start end_ now_iso) ∧
    totalTracked summary = totalCount (respond parseFloat data start end_ now_iso) ∧
    (length (hazardousList summary) ≤ 5)%nat ∧
    hazardous_name <$> hazardousList summary =
      take 5 (neo_name <$>
                filter (λ a, is_potentially_hazardous_asteroid a = true)
                  (flat_map snd (near_earth_objects data))).
Proof.
  eexists. split; [reflexivity|]. simpl. split_and!; [|done| |].
  - unfold sorted_asteroids, flatten.
    rewrite (sort_Permutation by_miss_distance). symmetry. apply hazardous_count.
  - rewrite length_take. lia.
  - assert (neo_name <$>
              filter (λ a, is_potentially_hazardous_asteroid a = true)
                (flat_map snd (near_earth_objects data)) =
            hazardous_name <$>
              flat_map (λ entry,
                hazardous_of <$>
                  filter (λ a, is_potentially_hazardous_asteroid a = true) entry.2)
                (near_earth_objects data)) as ->.
    { induction (near_earth_objects data) as [|entry objects IH]; [done|].
      cbn [flat_map]. rewrite filter_app, !fmap_app, IH. f_equal.
      by rewrite <- list_fmap_compose. }
    by rewrite fmap_take.
Qed.

(** X13. [closestApproach] is a fetched asteroid that no other one precedes
    in the order of the sort: among the asteroids with a non-zero finite
    miss distance it has the least; and the asteroids returned are in
    ascending order. *)
Theorem closest_approach_is_nearest (parseFloat : string → num) (data : feed)
    (start end_ now_iso : string) (nearest : asteroid) :
  closestApproach (respond parseFloat data start end_ now_iso) = Some nearest →
  nearest ∈ flatten parseFloat data ∧
  (∀ x, x ∈ flatten parseFloat data → is_neg (by_miss_distance x nearest) = false) ∧
  (∀ x d dx, x ∈ flatten parseFloat data →
     missDistance_km nearest = Some (Fin d) → missDistance_km x = Some (Fin dx) →
     ¬ (d == 0)%Q → ¬ (dx == 0)%Q → (d <= dx)%Q) ∧
  StronglySorted (not_after by_miss_distance)
    (asteroids (respond parseFloat data start end_ now_iso)).
Proof.
  simpl. unfold sorted_asteroids. intros Hhead.
  pose proof (by_miss_distance_sorted (flatten parseFloat data)) as Hsorted.
  pose proof (sort_Permutation by_miss_distance (flatten parseFloat data)) as Hperm.
  destruct (sort by_miss_distance (flatten parseFloat data)) as [|c rest] eqn:Hsort;
    [done|].
  injection Hhead as ->.
  apply StronglySorted_inv in Hsorted as Hinv. destruct Hinv as [_ Hrest].
  assert (∀ x, x ∈ flatten parseFloat data →
            is_neg (by_miss_distance x nearest) = false) as Hmin.
  { intros x Hx. rewrite <- Hperm in Hx.
    apply elem_of_cons in Hx as [->|Hx].
    - pose proof (or_Infinity_not_NaN (missDistance_km nearest)) as Hk.
      unfold by_miss_distance. fold (sort_key nearest) in Hk.
      destruct (sort_key nearest) as [| | |q]; simpl; try done.
      apply is_neg_Fin_false. lra.
    - rewrite Forall_forall in Hrest. by apply Hrest. }
  split_and!; [rewrite <- Hperm; left|done| |].
  - intros x d dx Hx Hd Hdx Hd0 Hdx0.
    specialize (Hmin x Hx). unfold by_miss_distance, sort_key in Hmin.
    rewrite Hd, Hdx in Hmin. simpl in Hmin.
    destruct (Qeq_bool d 0) eqn:Ed; [by apply Qeq_bool_iff in Ed|].
    destruct (Qeq_bool dx 0) eqn:Edx; [by apply Qeq_bool_iff in Edx|].
    simpl in Hmin. apply is_neg_Fin_false in Hmin. lra.
  - rewrite <- (take_drop 20 (nearest :: rest)) in Hsorted.
    by apply StronglySorted_app_1_l in Hsorted.
Qed.
End HazardFacts.

(** ** The report *)

Section ReportShape.
Context `{Runtime}.

(** X14. A report that is returned: the text of the picture is the
    explanation cut by [substring(0, 500)] with ["..."] appended,
    whatever the length of the explanation; the position of the ISS is
    ['unavailable'] exactly when its fetch gave [null], and otherwise the
    parsed latitude and longitude; the asteroids are summarized exactly
    when the feed was fetched; the people are grouped by craft; the date
    is that of the invocation and [fetchedAt] the reading of the
    clock. *)
Theorem report_shape (today : string) (vs : list json) (now : Z) (out : report_output) :
  report_continuation today vs now = Ok out →
  ∃ p a iss,
    vs !! 0%nat = Some (JApod p) ∧ vs !! 1%nat = Some (JAstros a) ∧
    vs !! 2%nat = Some iss ∧
    astronomyPictureOfTheDay (report out) =
      {| picture_title := title p;
         picture_explanation := String_substring 0 500 (explanation p) +:+ "...";
         picture_url := url p;
         mediaType := media_type p |} ∧
    (issLocation (report out) = unavailable ↔ iss = JNull) ∧
    (∀ i, iss = JIss i →
       issLocation (report out) =
         position (parseFloat (latitude i)) (parseFloat (longitude i))) ∧
    (is_Some (nearEarthObjects (report out)) ↔ ∃ f, vs !! 3%nat = Some (JFeed f)) ∧
    summarize (vs !! 3%nat) = Ok (nearEarthObjects (report out)) ∧
    humansInSpace_total (report out) = number a ∧
    group_by_craft (people a) ∅ = Ok (byCraft (report out)) ∧
    report_date (report out) = today ∧
    report_fetchedAt out = Date.toISOString now.
Proof.
  destruct vs as [|apod [|astros [|iss rest]]]; try done. simpl.
  destruct astros as [| |a| |]; try done. simpl.
  destruct (group_by_craft (people a) ∅) as [g|] eqn:Hg; [|done]. simpl.
  destruct (summarize (head rest)) as [summary|] eqn:Hsum; [|done]. simpl.
  destruct apod as [|p| | |]; try done. simpl.
  destruct (locate iss) as [loc|] eqn:Hloc; [|done]. simpl.
  intros [= <-]. exists p, a, iss. simpl.
  assert (rest !! 0%nat = head rest) as Hhead by (by destruct rest).
  split_and!; try done.
  - destruct iss; simpl in Hloc; try done; injection Hloc as <-; by split.
  - intros i ->. simpl in Hloc. by injection Hloc as <-.
  - destruct rest as [|j rest]; [|destruct j as [| | | |f]]; simpl in Hsum;
      try done; injection Hsum as <-.
    + split; [by intros [? ?]|by intros [? ?]].
    + split; [by intros [? ?]|by intros [? [=]]].
    + split; intros _; by eexists.
  - by rewrite Hhead.
Qed.
End ReportShape.

(** ** Transactions *)

Section TransactionFacts.
Import Analytics.

(** X15. The transactions returned are a prefix of the recorded ones: none
    when the agent has no tracker, the first 50 when no limit is given,
    the first [k] for a limit [k ≥ 0], and, for a negative limit [-k],
    all but the last [k]. *)
Theorem transactions_are_a_prefix {A : Type} (txs : list A) (limit : option num) :
  transactions None limit = @nil A ∧
  (∃ n, (n ≤ length txs)%nat ∧ transactions (Some txs) limit = take n txs) ∧
  transactions (Some txs) None = take 50 txs ∧
  (∀ k : Z, 0 ≤ k →
     transactions (Some txs) (Some (Fin (inject_Z k))) = take (Z.to_nat k) txs) ∧
  (∀ k : Z, 0 < k →
     transactions (Some txs) (Some (Fin (inject_Z (- k)))) =
     take (length txs - Z.to_nat k) txs).
Proof.
  assert (∀ k : Z, slice_end (Z.of_nat (length txs)) (Fin (inject_Z k)) =
            if k <? 0 then Z.max (Z.of_nat (length txs) + k) 0
            else Z.min k (Z.of_nat (length txs))) as Hend.
  { intros k. unfold slice_end, inject_Z. simpl. by rewrite Z.quot_1_r. }
  split_and!; [done| | | |].
  - exists (Nat.min (Z.to_nat (slice_end (Z.of_nat (length txs)) (default (Fin 50) limit)))
              (length txs)).
    split; [lia|]. simpl. unfold slice_to.
    set (n := Z.to_nat _).
    destruct (decide (n ≤ length txs)%nat).
    + by rewrite Nat.min_l.
    + rewrite Nat.min_r by lia. by rewrite !take_ge by lia.
  - simpl. unfold slice_to.
    change (Fin 50) with (Fin (inject_Z 50)). rewrite Hend. simpl.
    destruct (decide (50 ≤ length txs)%nat).
    + f_equal. lia.
    + rewrite !take_ge by lia. done.
  - intros k Hk. simpl. unfold slice_to. rewrite Hend.
    destruct (k <? 0) eqn:E; [apply Z.ltb_lt in E; lia|].
    destruct (decide (k ≤ Z.of_nat (length txs))).
    + f_equal. lia.
    + rewrite !take_ge by lia. done.
  - intros k Hk. simpl. unfold slice_to. rewrite Hend.
    destruct (- k <? 0) eqn:E; [|apply Z.ltb_ge in E; lia].
    f_equal. lia.
Qed.
End TransactionFacts.

(** ** Examples *)

Section FurtherExamples.
Import ExampleRuntime.

Lemma body_read_has_no_timeout_witness :
  ∃ s s' c,
    steps [ResponseArrives 0 200] (fetchJSON iss_url 15000 (fresh_loop 0)) = Some s ∧
    steps [Elapse 1000000000] s = Some s' ∧
    calls s !! 0%nat = Some c ∧ phase_of c = AwaitBody ∧
    calls s' !! 0%nat = Some c ∧
    timers s' !! timeoutId c = None ∧
    controllers s' !! controller c = Some false.
Proof.
  destruct (steps [ResponseArrives 0 200] (fetchJSON iss_url 15000 (fresh_loop 0)))
    as [s|] eqn:Hs; [|vm_compute in Hs; discriminate].
  destruct (steps [Elapse 1000000000] s) as [s'|] eqn:Hs';
    [|vm_compute in Hs; injection Hs as <-; vm_compute in Hs'; discriminate].
  destruct (calls s !! 0%nat) as [c|] eqn:Hc;
    [|vm_compute in Hs; injection Hs as <-; vm_compute in Hc; discriminate].
  assert (phase_of c = AwaitBody) as Hph
    by (vm_compute in Hs; injection Hs as <-; vm_compute in Hc; by injection Hc as <-).
  exists s, s', c. split; [reflexivity|]. split; [exact Hs'|].
  split; [exact Hc|]. split; [exact Hph|].
  apply (body_read_has_no_timeout [Elapse 1000000000] s s' 0%nat c);
    [eapply reachable_steps; [apply reachable_fetchJSON, reachable_fresh|exact Hs]
    |exact Hc|exact Hph|exact Hs'|repeat constructor; simpl; tauto].
Defined.

Lemma timers_are_cleared_witness :
  ∃ s, steps [ResponseArrives 0 200; Sample.network_error 1]
         (launch (report_tasks true 0) (fresh_loop 0)) = Some s ∧
       ∀ i c, calls s !! i = Some c → phase_of c ≠ AwaitFetch →
              timers s !! timeoutId c = None.
Proof.
  destruct (steps [ResponseArrives 0 200; Sample.network_error 1]
              (launch (report_tasks true 0) (fresh_loop 0)))
    as [s|] eqn:Hs; [|vm_compute in Hs; discriminate].
  exists s. split; [reflexivity|].
  apply (timers_are_cleared s).
  eapply reachable_steps; [apply reachable_launch, reachable_fresh|exact Hs].
Defined.

Lemma fetchJSON_rejections_witness :
  ∃ s' c',
    step (ResponseArrives 0 503) (fetchJSON iss_url 15000 (fresh_loop 0)) = Some s' ∧
    calls s' !! 0%nat = Some c' ∧
    phase_of c' = Rejected (Error "Fetch failed: API error: 503").
Proof.
  destruct (step (ResponseArrives 0 503) (fetchJSON iss_url 15000 (fresh_loop 0)))
    as [s'|] eqn:Hs; [|vm_compute in Hs; discriminate].
  destruct (calls s' !! 0%nat) as [c'|] eqn:Hc';
    [|vm_compute in Hs; injection Hs as <-; vm_compute in Hc'; discriminate].
  destruct (phase_of c') as [| |v|err] eqn:Hph;
    try (vm_compute in Hs; injection Hs as <-; vm_compute in Hc';
         injection Hc' as <-; discriminate).
  exists s', c'. split; [reflexivity|]. split; [exact Hc'|].
  destruct (calls (fetchJSON iss_url 15000 (fresh_loop 0)) !! 0%nat) as [c|] eqn:Hc;
    [|vm_compute in Hc; discriminate].
  destruct (fetchJSON_rejections (ResponseArrives 0 503)
              (fetchJSON iss_url 15000 (fresh_loop 0)) s' 0%nat c c' err)
    as (_ & _ & _ & Herr).
  - apply reachable_fetchJSON, reachable_fresh.
  - exact Hs.
  - exact Hc.
  - vm_compute in Hc. by injection Hc as <-.
  - exact Hc'.
  - exact Hph.
  - rewrite Hph, Herr. reflexivity.
Defined.

Lemma fetch_is_called_once_per_invocation_witness :
  ∃ s, steps [Sample.network_error 0; ResponseArrives 1 200]
         (launch (report_tasks false 0) (fresh_loop 0)) = Some s ∧
       requests s = (λ c, (resource c, controller c)) <$> calls s ∧
       length (requests s) = 3%nat.
Proof.
  destruct (steps [Sample.network_error 0; ResponseArrives 1 200]
              (launch (report_tasks false 0) (fresh_loop 0)))
    as [s|] eqn:Hs; [|vm_compute in Hs; discriminate].
  exists s. split; [reflexivity|].
  assert (reachable s) as Hreach
    by (eapply reachable_steps; [apply reachable_launch, reachable_fresh|exact Hs]).
  split; [exact (proj1 (fetch_is_called_once_per_invocation s Hreach))|].
  vm_compute in Hs. injection Hs as <-. reflexivity.
Defined.

Lemma first_failure_wins_witness :
  let els := elements (report_entry false 0) in
  ∃ s s',
    steps [Sample.network_error 0] (launch (report_tasks false 0) (fresh_loop 0)) = Some s ∧
    steps [FetchRejects 1 "TypeError" "connection reset"] s = Some s' ∧
    Promise_all els s = Failed (Error "Fetch failed: fetch failed") ∧
    Promise_all els s' = Promise_all els s.
Proof.
  intros els.
  destruct (steps [Sample.network_error 0] (launch (report_tasks false 0) (fresh_loop 0)))
    as [s|] eqn:Hs; [|vm_compute in Hs; discriminate].
  destruct (steps [FetchRejects 1 "TypeError" "connection reset"] s) as [s'|] eqn:Hs';
    [|vm_compute in Hs; injection Hs as <-; vm_compute in Hs'; discriminate].
  assert (Promise_all els s = Failed (Error "Fetch failed: fetch failed")) as Hall
    by (vm_compute in Hs; injection Hs as <-; vm_compute; reflexivity).
  exists s, s'. split; [reflexivity|]. split; [exact Hs'|]. split; [exact Hall|].
  apply (first_failure_wins els [FetchRejects 1 "TypeError" "connection reset"] s s');
    [eapply reachable_steps; [apply reachable_launch, reachable_fresh|exact Hs]
    |by rewrite Hall|exact Hs'].
Defined.

Lemma invocations_settle_once_witness :
  ∃ s, steps [Sample.network_error 0; ResponseArrives 1 200; BodyParsed 1 (JAstros Sample.crew)]
         (launch (report_tasks false 0) (fresh_loop 0)) = Some s ∧
       NoDup (settled s) ∧ settled s = [0%nat; 1%nat].
Proof.
  destruct (steps [Sample.network_error 0; ResponseArrives 1 200;
                   BodyParsed 1 (JAstros Sample.crew)]
              (launch (report_tasks false 0) (fresh_loop 0)))
    as [s|] eqn:Hs; [|vm_compute in Hs; discriminate].
  exists s. split; [reflexivity|].
  assert (reachable s) as Hreach
    by (eapply reachable_steps; [apply reachable_launch, reachable_fresh|exact Hs]).
  split; [exact (proj1 (invocations_settle_once s Hreach))|].
  vm_compute in Hs. injection Hs as <-. reflexivity.
Defined.

Lemma handler_waits_for_its_timers_witness :
  ∃ r, run_steps overview [Elapse 30005; TimerFires 0] (start overview 0) = Some r ∧
       clock (state r) = 30005 ∧
       outcome r = Some (Throw (Error "Fetch failed: The operation was aborted.")).
Proof.
  destruct (run_steps overview [Elapse 30005; TimerFires 0] (start overview 0))
    as [r|] eqn:Hr; [|vm_compute in Hr; discriminate].
  exists r. split; [reflexivity|].
  split; [vm_compute in Hr; injection Hr as <-; reflexivity|].
  destruct (handler_waits_for_its_timers overview 0 [Elapse 30005; TimerFires 0] r 0%nat
              {| task_url := astros_url; task_timeout := 30000; with_catch := false |})
    as [[(e & He)|(Hnone & _)] Hsilent].
  - exact Hr.
  - reflexivity.
  - reflexivity.
  - simpl; lia.
  - repeat constructor; simpl; tauto.
  - rewrite He. do 2 f_equal. apply Hsilent; [|exact He].
    repeat constructor; simpl; tauto.
  - exfalso. vm_compute in Hr. injection Hr as <-. discriminate.
Defined.

Lemma byCraft_holds_each_crew_witness :
  ∃ g, group_by_craft (people Sample.crew) ∅ = Ok g ∧
       g !! "ISS" = Some ["A"] ∧ g !! "Tiangong" = Some ["B"] ∧ g !! "Mir" = None.
Proof.
  destruct (group_by_craft (people Sample.crew) ∅) as [g|] eqn:Hg;
    [|vm_compute in Hg; discriminate].
  exists g. split; [reflexivity|].
  destruct (byCraft_holds_each_crew _ g Hg) as (Hlook & _).
  rewrite !Hlook. by split_and!.
Defined.

Lemma overview_lists_each_craft_once_witness :
  ∃ out, overview_continuation [JAstros Sample.crew; JApod Sample.picture_of_the_day] 0
           = Ok out ∧
         NoDup (crafts out) ∧ crafts out = ["ISS"; "Tiangong"].
Proof.
  eexists. split; [reflexivity|].
  split; [|vm_compute; reflexivity].
  eapply (overview_lists_each_craft_once Sample.crew (JApod Sample.picture_of_the_day) 0).
  reflexivity.
Defined.

Lemma astronauts_lists_the_keys_of_byCraft_witness :
  ∃ out, Astronauts.astronauts_continuation [JAstros Fixtures.numbered_crew] 0 = Ok out ∧
         NoDup (Astronauts.crafts out) ∧
         Astronauts.crafts out = ["9"; "10"; "ISS"].
Proof.
  destruct (Astronauts.astronauts_continuation [JAstros Fixtures.numbered_crew] 0)
    as [out|] eqn:Hout; [|vm_compute in Hout; discriminate].
  exists out. split; [reflexivity|].
  split; [exact (proj1 (astronauts_lists_the_keys_of_byCraft _ 0 out Hout))|].
  vm_compute in Hout. injection Hout as <-. reflexivity.
Defined.

Lemma closest_approach_is_nearest_witness :
  ∃ nearest,
    Asteroids.closestApproach
      (Asteroids.respond parse_digits Fixtures.feed "2024-01-01" "2024-01-04" "now")
      = Some nearest ∧
    Asteroids.name nearest = "b" ∧
    nearest ∈ Asteroids.flatten parse_digits Fixtures.feed.
Proof.
  eexists. split; [vm_compute; reflexivity|]. split; [reflexivity|].
  eapply (closest_approach_is_nearest parse_digits Fixtures.feed
            "2024-01-01" "2024-01-04" "now").
  vm_compute; reflexivity.
Defined.

Lemma report_shape_witness :
  ∃ out,
    report_continuation "1970-01-01"
      [JApod Sample.picture_of_the_day; JAstros Sample.crew; JNull] 0 = Ok out ∧
    picture_explanation (astronomyPictureOfTheDay (report out)) = "A nebula...." ∧
    issLocation (report out) = unavailable.
Proof.
  destruct (report_continuation "1970-01-01"
              [JApod Sample.picture_of_the_day; JAstros Sample.crew; JNull] 0)
    as [out|] eqn:Hout; [|vm_compute in Hout; discriminate].
  exists out. split; [reflexivity|].
  destruct (report_shape _ _ _ out Hout)
    as (p & a & iss & Hp & Ha & Hiss & Hpic & Hloc & _).
  injection Hp as <-. injection Hiss as <-.
  split; [by rewrite Hpic|]. by apply Hloc.
Defined.
End FurtherExamples.
